(** * Inference engine of the iris demo: a shallow embedding of [docs/app.js]
    (multi-model version) and of the earlier single-model script.

    Numbers.  A JavaScript number is an IEEE-754 double.  The embedding
    idealises it as an extended real: a finite value is an exact real number,
    and [NaN], [+Infinity] and [-Infinity] behave as IEEE-754 prescribes.
    [undefined], the value read from an array past its end, is [None] of an
    [option]; arithmetic coerces it to [NaN] as ToNumber does.

    What the idealisation leaves out is the rounding of a finite result, its
    overflow to an infinity, its underflow to zero, and the sign of zero.
    The results of this file are therefore about what a double computation
    shares with the exact one: which entries are read and in which order
    they are combined, what is returned, thrown or looped on, how two values
    compare, and how [NaN] and the infinities spread.  None of them takes the
    value of a finite sum, product, quotient or exponential from the exact
    operation, except where the operation on doubles is exact as well: on
    small whole numbers, in [0 + x], [x * 1], [x * 0], [x / 1] and [x - x],
    and in [Math.exp(0)].

    Control.  A call either returns, throws a [TypeError] (a property read on
    [undefined]), or is still running when the fuel that bounds the unrolling
    of [while (true)] is used up. *)

From Stdlib Require Import Reals Lra Lia ZArith List.
From stdpp Require Import base option list strings gmap.
Import ListNotations.

Local Open Scope nat_scope.

(** ** Numbers *)

Module Num.

Inductive num : Type :=
| Fin (r : R)
| NaN
| PInf
| NInf.

Definition zero : num := Fin 0%R.

(** [-a] *)
Definition neg (a : num) : num :=
  match a with
  | Fin r => Fin (- r)%R
  | NaN => NaN
  | PInf => NInf
  | NInf => PInf
  end.

(** [a + b].  On two finite numbers this is the exact sum, where the code
    has the sum rounded to a double, or an infinity when it overflows. *)
Definition add (a b : num) : num :=
  match a, b with
  | NaN, _ | _, NaN => NaN
  | Fin x, Fin y => Fin (x + y)%R
  | PInf, NInf | NInf, PInf => NaN
  | PInf, _ | _, PInf => PInf
  | NInf, _ | _, NInf => NInf
  end.

(** [a - b] *)
Definition sub (a b : num) : num := add a (neg b).

(** The infinity that carries the sign of a product or quotient whose
    factors have the given signs; a zero factor gives [NaN]. *)
Definition signed_inf (positive negative : bool) : num :=
  if positive then PInf else if negative then NInf else NaN.

Definition is_pos (r : R) : bool := if Rlt_dec 0 r then true else false.
Definition is_neg (r : R) : bool := if Rlt_dec r 0 then true else false.
Definition is_zero (r : R) : bool := if Req_dec_T r 0 then true else false.

(** [a * b].  On two finite numbers this is the exact product, where the
    code has it rounded, or an infinity when it overflows. *)
Definition mul (a b : num) : num :=
  match a, b with
  | NaN, _ | _, NaN => NaN
  | Fin x, Fin y => Fin (x * y)%R
  | Fin x, PInf | PInf, Fin x => signed_inf (is_pos x) (is_neg x)
  | Fin x, NInf | NInf, Fin x => signed_inf (is_neg x) (is_pos x)
  | PInf, PInf | NInf, NInf => PInf
  | PInf, NInf | NInf, PInf => NInf
  end.

(** [a / b].  On two finite numbers with a divisor other than zero this is
    the exact quotient, where the code has it rounded, or an infinity when it
    overflows; the one zero of the model divides like [+0]. *)
Definition div (a b : num) : num :=
  match a, b with
  | NaN, _ | _, NaN => NaN
  | Fin x, Fin y =>
      if is_zero y then signed_inf (is_pos x) (is_neg x) else Fin (x / y)%R
  | Fin _, (PInf | NInf) => Fin 0%R
  | PInf, Fin y => if is_neg y then NInf else PInf
  | NInf, Fin y => if is_neg y then PInf else NInf
  | (PInf | NInf), (PInf | NInf) => NaN
  end.

(** [Math.exp(a)].  On a finite number this is the exact exponential, where
    the code has an approximation that can round to 1, underflow to 0 or
    overflow to an infinity. *)
Definition exp (a : num) : num :=
  match a with
  | Fin r => Fin (Rtrigo_def.exp r)
  | NaN => NaN
  | PInf => PInf
  | NInf => Fin 0%R
  end.

(** [a <= b]: false as soon as one side is [NaN]. *)
Definition le (a b : num) : bool :=
  match a, b with
  | NaN, _ | _, NaN => false
  | Fin x, Fin y => if Rle_dec x y then true else false
  | NInf, _ | _, PInf => true
  | _, _ => false
  end.

(** [a > b] *)
Definition gt (a b : num) : bool :=
  match a, b with
  | NaN, _ | _, NaN => false
  | Fin x, Fin y => if Rlt_dec y x then true else false
  | PInf, PInf | NInf, NInf => false
  | PInf, _ | _, NInf => true
  | _, _ => false
  end.

(** [a === b] on numbers: [NaN] equals nothing, itself included. *)
Definition strict_eq (a b : num) : bool :=
  match a, b with
  | Fin x, Fin y => if Req_dec_T x y then true else false
  | PInf, PInf | NInf, NInf => true
  | _, _ => false
  end.

(** ToNumber on an array read: [undefined] becomes [NaN]. *)
Definition of_read (v : option num) : num :=
  match v with Some a => a | None => NaN end.

(** [v || 0] on an array read: [undefined], [0] and [NaN] are falsy. *)
Definition or_zero (v : option num) : num :=
  match v with
  | Some (Fin r) => if is_zero r then zero else Fin r
  | Some NaN | None => zero
  | Some a => a
  end.

(** One step of [Math.max]: [NaN] wins, otherwise the larger value. *)
Definition max2 (highest a : num) : num :=
  match highest, a with
  | NaN, _ | _, NaN => NaN
  | _, _ => if gt a highest then a else highest
  end.

(** [Math.max(...arr)]: [-Infinity] on no argument. *)
Definition math_max (arr : list num) : num := fold_left max2 arr NInf.

End Num.

Abbreviation num := Num.num.
Abbreviation Fin := Num.Fin.
Abbreviation NaN := Num.NaN.
Abbreviation PInf := Num.PInf.
Abbreviation NInf := Num.NInf.

Declare Scope num_scope.
Delimit Scope num_scope with num.
Bind Scope num_scope with num.
Infix "+" := Num.add : num_scope.
Infix "-" := Num.sub : num_scope.
Infix "*" := Num.mul : num_scope.
Infix "/" := Num.div : num_scope.

(** ** [softmax] *)

(** [arr.reduce((a,b)=>a+b, 0)] *)
Definition sum (arr : list num) : num := fold_left Num.add arr Num.zero.

Definition softmax (arr : list num) : list num :=
  let max := Num.math_max arr in
  let exps := map (fun v => Num.exp (v - max)%num) arr in
  let sum := sum exps in
  map (fun e => (e / sum)%num) exps.

(** ** Outcomes of a call *)

Inductive outcome (A : Type) : Type :=
| Ret (a : A)        (* the call returns [a] *)
| TypeError          (* a property of [undefined] was read *)
| OutOfFuel.         (* still running when the step bound was reached *)

Arguments Ret {A} a.
Arguments TypeError {A}.
Arguments OutOfFuel {A}.

#[export] Instance outcome_ret : MRet outcome := @Ret.
#[export] Instance outcome_bind : MBind outcome := fun A B f m =>
  match m with
  | Ret a => f a
  | TypeError => TypeError
  | OutOfFuel => OutOfFuel
  end.

(** A read that throws on [undefined]. *)
Definition defined {A} (v : option A) : outcome A :=
  match v with Some a => Ret a | None => TypeError end.

(** ** The model document ([models.json]) *)

(** A tree node as exported: every node carries all five fields, and a leaf
    is marked by [-1] in both child fields. *)
Record node : Type := Node {
  left : Z;
  right : Z;
  feature : Z;
  threshold : num;
  value : list num
}.

Record rf_model : Type := RfModel {
  n_classes : option nat;
  trees : list (list node)
}.

Record mlp_model : Type := MlpModel {
  coefs : list (list (list num));
  intercepts : list (list num)
}.

(** A model record, by its [type] field: ['linear'], ['rf'], ['mlp'], or
    [Other] for a record whose type is none of these. *)
Inductive model : Type :=
| Linear (coef : list (list num)) (intercept : list num)
| Rf (m : rf_model)
| Mlp (m : mlp_model)
| Other.

Record export_data : Type := ExportData {
  scaler_mean : list num;
  scaler_scale : list num;
  class_names : list string;
  models : gmap string model
}.

(** [arr[i]] for a number [i] held as an integer. *)
Definition read {A} (arr : list A) (i : Z) : option A :=
  if (i <? 0)%Z then None else arr !! Z.to_nat i.

(** ** [scaleFeatures] *)

(** The raw entries are numbers, on which [Number(v)] is the identity. *)
Definition scaleFeatures (exportData : export_data) (features : list num)
  : list num :=
  let mean := scaler_mean exportData in
  let scale := scaler_scale exportData in
  imap (fun i v =>
          ((v - Num.of_read (mean !! i)) / Num.of_read (scale !! i))%num)
       features.

(** ** [scoreLinear] *)

(** [for (let i = 0; i < row.length; i++) s += row[i] * xs[i]] *)
Definition add_products (s : num) (row xs : list num) : num :=
  fold_left
    (fun s i => (s + Num.of_read (row !! i) * Num.of_read (xs !! i))%num)
    (seq 0 (length row)) s.

(** The loop over [c] pushes one score for each row [coef[c]], in order. *)
Definition scoreLinear (coef : list (list num)) (intercept xs : list num)
  : list num :=
  let scores :=
    imap (fun c row => add_products (Num.or_zero (intercept !! c)) row xs)
         coef in
  softmax scores.

(** ** [predictTree] *)

(** What one turn of the loop does at index [node]. *)
Inductive turn : Type :=
| Leaf (counts : list num)
| Goto (next : Z)
| Fault.

Definition visit (treeNodes : list node) (xs : list num) (node : Z) : turn :=
  match read treeNodes node with
  | None => Fault
  | Some n =>
      if ((left n =? -1) && (right n =? -1))%Z then Leaf (value n)
      else if Num.le (Num.of_read (read xs (feature n))) (threshold n)
           then Goto (left n)
           else Goto (right n)
  end.

(** The loop from index [node], unrolled at most [fuel] times. *)
Fixpoint predictTree_from (fuel : nat) (treeNodes : list node)
    (xs : list num) (node : Z) : outcome (list num) :=
  match fuel with
  | O => OutOfFuel
  | S fuel' =>
      match visit treeNodes xs node with
      | Leaf counts => Ret counts
      | Fault => TypeError
      | Goto next => predictTree_from fuel' treeNodes xs next
      end
  end.

Definition predictTree (fuel : nat) (treeNodes : list node) (xs : list num)
  : outcome (list num) :=
  predictTree_from fuel treeNodes xs 0%Z.

(** ** [predictRF] *)

(** [arr[i] = v].  The loops of this program write index [i] only when the
    indices below [i] exist, so a write past the end appends. *)
Definition js_set (arr : list num) (i : nat) (v : num) : list num :=
  if i <? length arr then <[i:=v]> arr else arr ++ [v].

(** [for (let i = 0; i < counts.length; i++) agg[i] += counts[i]] *)
Definition add_counts (agg counts : list num) : list num :=
  fold_left
    (fun agg i =>
       js_set agg i (Num.of_read (agg !! i) + Num.of_read (counts !! i))%num)
    (seq 0 (length counts)) agg.

(** [rfModel.n_classes || exportData.class_names.length] *)
Definition nClasses (exportData : export_data) (rfModel : rf_model) : nat :=
  match n_classes rfModel with
  | Some (S n) => S n
  | _ => length (class_names exportData)
  end.

(** The [forEach] over the trees: the counts of every tree's leaf, added
    into [agg]. *)
Definition aggregate (fuel : nat) (exportData : export_data)
    (rfModel : rf_model) (xs : list num) : outcome (list num) :=
  let agg0 := replicate (nClasses exportData rfModel) Num.zero in
  fold_left
    (fun acc tree =>
       agg ← acc;
       counts ← predictTree fuel tree xs;
       mret (add_counts agg counts))
    (trees rfModel) (mret agg0).

Definition predictRF (fuel : nat) (exportData : export_data)
    (rfModel : rf_model) (xs : list num) : outcome (list num) :=
  agg ← aggregate fuel exportData rfModel xs;
  let total := sum agg in
  mret (map (fun v => (v / total)%num) agg).

(** ** [mlpPredict] *)

(** [Math.max(0, v)] *)
Definition relu (v : num) : num := Num.math_max [Num.zero; v].

(** The output of one layer before its activation. *)
Definition dense (W : list (list num)) (b a : list num)
  : outcome (list num) :=
  mapM
    (fun j =>
       fold_left
         (fun acc i =>
            s ← acc;
            Wi ← defined (W !! i);
            mret (s + Num.of_read (a !! i) * Num.of_read (Wi !! j))%num)
         (seq 0 (length a)) (mret (Num.of_read (b !! j))))
    (seq 0 (length b)).

Definition mlpPredict (mlpModel : mlp_model) (xs_raw : list num)
  : outcome (list num) :=
  a ← fold_left
        (fun acc layer =>
           a ← acc;
           W ← defined (coefs mlpModel !! layer);
           b ← defined (intercepts mlpModel !! layer);
           out ← dense W b a;
           mret (if layer <? length (coefs mlpModel) - 1
                 then map relu out else out))
        (seq 0 (length (coefs mlpModel))) (mret xs_raw);
  mret (softmax a).

(** ** [predictWithModel] *)

(** [models] holds the own keys of [exportData.models]; a name it lacks
    reads as [undefined] or as a member of [Object.prototype], which has no
    [type], and both end in [return null].  [None] is that [null]. *)
Definition predictWithModel (fuel : nat) (exportData : export_data)
    (modelName : string) (xs_scaled : list num)
  : outcome (option (list num)) :=
  match models exportData !! modelName with
  | None => mret None
  | Some (Linear coef intercept) =>
      mret (Some (scoreLinear coef intercept xs_scaled))
  | Some (Rf m) =>
      probs ← predictRF fuel exportData m xs_scaled; mret (Some probs)
  | Some (Mlp m) =>
      probs ← mlpPredict m xs_scaled; mret (Some probs)
  | Some Other => mret None
  end.

(** ** The winning class: [probs.indexOf(Math.max(...probs))] *)

(** [arr.indexOf(x)] searched from position [k] on: the first position whose
    element is [=== x], or [-1]. *)
Fixpoint indexOf_from (k : Z) (arr : list num) (x : num) : Z :=
  match arr with
  | [] => (-1)%Z
  | v :: rest =>
      if Num.strict_eq v x then k else indexOf_from (k + 1)%Z rest x
  end.

Definition indexOf (arr : list num) (x : num) : Z := indexOf_from 0%Z arr x.

Definition maxIdx (probs : list num) : Z := indexOf probs (Num.math_max probs).

(** ** The single-model script *)

Module Single.

Record model_params : Type := ModelParams {
  scaler_mean : list num;
  scaler_scale : list num;
  coef : list (list num);
  intercept : list num;
  class_names : list string
}.

Record prediction : Type := Prediction {
  classIndex : Z;
  className : option string;
  probs : list num
}.

Definition predictFromFeatures (model : model_params) (features : list num)
  : prediction :=
  let mean := scaler_mean model in
  let scale := scaler_scale model in
  let xs :=
    imap (fun i v =>
            ((v - Num.of_read (mean !! i)) / Num.of_read (scale !! i))%num)
         features in
  let scores :=
    imap (fun c row =>
            add_products (Num.of_read (intercept model !! c)) row xs)
         (coef model) in
  let probs := softmax scores in
  let best := maxIdx probs in
  Prediction best (read (class_names model) best) probs.

End Single.

(** ** The click handler of the multi-model page

    The handler reads the form, scales the raw values, runs the models whose
    boxes are ticked and, when asked to, averages their outputs.  The parts
    below are the ones that compute; the reads and writes of the page are
    left out. *)

(** [modelOrder]: the names are pushed in this order, one per ticked box. *)
Definition modelOrder (showLog showRF showSVM showMLP : bool) : list string :=
  (if showLog then ["logistic"] else []) ++
  (if showRF then ["random_forest"] else []) ++
  (if showSVM then ["svm"] else []) ++
  (if showMLP then ["mlp"] else []).

(** [probList] after the [forEach] over [modelOrder]: a model whose
    prediction is [null] is skipped ([if (!probs) return]). *)
Definition probList (fuel : nat) (exportData : export_data)
    (modelOrder : list string) (xs : list num) : outcome (list (list num)) :=
  fold_left
    (fun acc name =>
       probList ← acc;
       probs ← predictWithModel fuel exportData name xs;
       mret (match probs with
             | None => probList
             | Some probs => probList ++ [probs]
             end))
    modelOrder (mret []).

(** [avg]: [summed] starts as [probList[0].length] zeros, every vector is
    added into it index by index, and each sum is divided by
    [n = probList.length].  The handler computes it only when [probList] is
    not empty. *)
Definition average (probList : list (list num)) : list num :=
  match probList with
  | [] => []
  | first :: _ =>
      let n := Fin (INR (length probList)) in
      let summed :=
        fold_left add_counts probList (replicate (length first) Num.zero) in
      map (fun v => (v / n)%num) summed
  end.

(** The class index handed to [setReferenceImage], if any: the winner of the
    average when the ensemble box is ticked, else the winner of the first
    model shown. *)
Definition referenceIndex (doEnsemble : bool) (probList : list (list num))
  : option Z :=
  match probList with
  | [] => None
  | first :: _ =>
      Some (if doEnsemble then maxIdx (average probList) else maxIdx first)
  end.

(** * Reference definitions, in the words of the specification *)

(** [max(l)] of a non-empty list. *)
Definition Rmaximum (l : list R) : R :=
  match l with
  | [] => 0%R
  | x :: l' => fold_left Rmax l' x
  end.

(** A tree node as the tagged union of the data model. *)
Inductive spec_node : Type :=
| Internal (featureIndex : Z) (threshold : num) (leftIndex rightIndex : Z)
| SLeaf (classCounts : list num).

Definition is_leaf (n : node) : bool := ((left n =? -1) && (right n =? -1))%Z.

Definition as_spec_node (n : node) : spec_node :=
  if is_leaf n then SLeaf (value n)
  else Internal (feature n) (threshold n) (left n) (right n).

(** [traverse]: from an index, go to [leftIndex] when
    [xs[featureIndex] <= threshold] and to [rightIndex] otherwise, and stop
    at a [Leaf] with its [classCounts]. *)
Inductive traverse_from (tree : list spec_node) (xs : list num)
  : Z -> list num -> Prop :=
| traverse_leaf i counts :
    read tree i = Some (SLeaf counts) ->
    traverse_from tree xs i counts
| traverse_left i f th l r counts :
    read tree i = Some (Internal f th l r) ->
    Num.le (Num.of_read (read xs f)) th = true ->
    traverse_from tree xs l counts ->
    traverse_from tree xs i counts
| traverse_right i f th l r counts :
    read tree i = Some (Internal f th l r) ->
    Num.le (Num.of_read (read xs f)) th = false ->
    traverse_from tree xs r counts ->
    traverse_from tree xs i counts.

(** Traversal starts at node index 0. *)
Definition traverse (tree : list spec_node) (xs counts : list num) : Prop :=
  traverse_from tree xs 0%Z counts.

(** A tree is well formed when it has a root, every child index of an
    internal node is in range, and the child edges admit a rank that
    decreases along them (no cycle). *)
Definition child_ok (treeNodes : list node) (rank : Z -> nat) (i child : Z)
  : Prop :=
  is_Some (read treeNodes child) /\ (rank child < rank i)%nat.

Definition well_formed (treeNodes : list node) : Prop :=
  treeNodes <> [] /\
  exists rank : Z -> nat,
    forall i n, read treeNodes i = Some n -> is_leaf n = false ->
      child_ok treeNodes rank i (left n) /\
      child_ok treeNodes rank i (right n).

(** The layout of the exporter: children follow their parent in the array.
    A check that decides a sufficient condition for [well_formed]. *)
Definition child_after (len : nat) (i : nat) (child : Z) : bool :=
  ((Z.of_nat i <? child) && (child <? Z.of_nat len))%Z.

Definition preorder_layout (treeNodes : list node) : bool :=
  match treeNodes with [] => false | _ => true end &&
  forallb (fun b : bool => b)
    (imap (fun i n =>
             is_leaf n ||
             (child_after (length treeNodes) i (left n) &&
              child_after (length treeNodes) i (right n)))
          treeNodes).

(** A layer of the feed-forward model. *)
Record layer : Type := Layer {
  weights : list (list num);   (* matrix[in][out] *)
  bias : list num              (* [out] *)
}.

(** Column [j] of a matrix. *)
Definition column (W : list (list num)) (j : nat) : list num :=
  map (fun row => Num.of_read (row !! j)) W.

(** [out[j] = bias[j] + Σ_i a[i] * weights[i][j]], the products added to the
    bias one after the other, in the order of [i]. *)
Definition layer_out (L : layer) (a : list num) : list num :=
  imap (fun j bj =>
          fold_left Num.add (zip_with Num.mul a (column (weights L) j)) bj)
       (bias L).

(** [ReLU(v) = max(0, v)] *)
Definition ReLU (v : num) : num := Num.max2 Num.zero v.

(** The activation after the last layer: ReLU after every layer but the
    last. *)
Fixpoint forward (layers : list layer) (a : list num) : list num :=
  match layers with
  | [] => a
  | [L] => layer_out L a
  | L :: rest => forward rest (map ReLU (layer_out L a))
  end.

Definition feed_forward_spec (layers : list layer) (xs : list num)
  : list num :=
  softmax (forward layers xs).

(** The chaining invariant: the first layer takes [din] inputs, every row
    of a layer's weights has one entry per output, and each layer takes as
    many inputs as the layer before it has outputs. *)
Fixpoint chained (din : nat) (layers : list layer) : Prop :=
  match layers with
  | [] => True
  | L :: rest =>
      length (weights L) = din /\
      Forall (fun row => length row = length (bias L)) (weights L) /\
      chained (length (bias L)) rest
  end.

(** The number of outputs of the last layer; [din] when there is no
    layer. *)
Fixpoint output_dim (din : nat) (layers : list layer) : nat :=
  match layers with
  | [] => din
  | L :: rest => output_dim (length (bias L)) rest
  end.

(** The model record that stores the layers. *)
Definition mlp_of_layers (layers : list layer) : mlp_model :=
  MlpModel (map weights layers) (map bias layers).

(** [walk t xs k i j]: from index [i], [k] turns of the loop of
    [predictTree], none of which stops, lead to index [j]. *)
Inductive walk (treeNodes : list node) (xs : list num)
  : nat -> Z -> Z -> Prop :=
| walk_here i : walk treeNodes xs 0 i i
| walk_turn k i next j :
    visit treeNodes xs i = Goto next ->
    walk treeNodes xs k next j ->
    walk treeNodes xs (S k) i j.

(** * Sample documents *)

(** A scaler for one feature, mean 0 and scale 1. *)
Definition unit_scaler : export_data := ExportData [Fin 0] [Fin 1] [] ∅.

(** Three classes and no model. *)
Definition three_classes : export_data :=
  ExportData [] [] ["setosa"; "versicolor"; "virginica"] ∅.

(** A one-node tree whose node names itself as both children. *)
Definition cyclic_tree : list node := [Node 0 0 0 (Fin 0) []].

(** The tree of the specification's scenario: the root tests feature 0
    against 0.5; its children are the leaves [[5,0]] and [[0,5]]. *)
Definition stump : list node :=
  [ Node 1 2 0 (Fin (5/10)) [];
    Node (-1) (-1) (-2) (Fin (-2)) [Fin 5; Fin 0];
    Node (-1) (-1) (-2) (Fin (-2)) [Fin 0; Fin 5] ].

(** The layer of the specification's scenario: the 2x2 identity, no bias. *)
Definition identity_layer : layer :=
  Layer [[Fin 1; Fin 0]; [Fin 0; Fin 1]] [Fin 0; Fin 0].

(** A bundle with a linear model under ["logistic"] and, under ["svm"], a
    record whose type is none of the known ones. *)
Definition two_models : export_data :=
  ExportData [Fin 0; Fin 0] [Fin 1; Fin 1] ["a"; "b"]
    (<["svm" := Other]>
       {[ "logistic" := Linear [[Fin 1; Fin 0]; [Fin 0; Fin 1]]
                               [Fin 0; Fin 0] ]}).

(** A tree that is a single leaf holding two zero counts. *)
Definition zero_leaf : list node :=
  [Node (-1) (-1) (-2) (Fin (-2)) [Fin 0; Fin 0]].

(** The parameters of the single-model script, all finite. *)
Definition finite_params (mean scale : list R) (coef : list (list R))
    (b : list R) (names : list string) : Single.model_params :=
  Single.ModelParams (map Fin mean) (map Fin scale) (map (map Fin) coef)
                     (map Fin b) names.

(** Whether the bundle maps a name to a model of a known type. *)
Definition answers (exportData : export_data) (name : string) : bool :=
  match models exportData !! name with
  | None | Some Other => false
  | Some _ => true
  end.

(** * Properties *)

Local Open Scope R_scope.

(** ** Arithmetic of finite numbers *)

Section FiniteArithmetic.

Lemma is_zero_false r : r <> 0 -> Num.is_zero r = false.
Proof. intros H. unfold Num.is_zero. destruct (Req_dec_T r 0); congruence. Qed.

Lemma is_zero_true : Num.is_zero 0 = true.
Proof. unfold Num.is_zero. destruct (Req_dec_T 0 0); congruence. Qed.

Lemma div_zero_zero : (Fin 0 / Fin 0)%num = NaN.
Proof.
  simpl. rewrite is_zero_true. unfold Num.signed_inf, Num.is_pos, Num.is_neg.
  destruct (Rlt_dec 0 0); [lra | reflexivity].
Qed.

Lemma max2_Fin h a : Num.max2 (Fin h) (Fin a) = Fin (Rmax h a).
Proof.
  unfold Num.max2, Num.gt, Rmax.
  destruct (Rlt_dec h a), (Rle_dec h a); try reflexivity; try lra.
  f_equal. lra.
Qed.

Lemma fold_max2_Fin l h :
  fold_left Num.max2 (map Fin l) (Fin h) = Fin (fold_left Rmax l h).
Proof.
  revert h. induction l as [|a l IH]; intros h; simpl; [reflexivity|].
  change (fold_left Num.max2 (map Fin l) (Num.max2 (Fin h) (Fin a)) =
          Fin (fold_left Rmax l (Rmax h a))).
  now rewrite max2_Fin, IH.
Qed.

Lemma math_max_Fin x l :
  Num.math_max (map Fin (x :: l)) = Fin (Rmaximum (x :: l)).
Proof. unfold Num.math_max. simpl. apply fold_max2_Fin. Qed.

End FiniteArithmetic.

(** ** The maximum of a list of reals *)

Section RealLists.

Lemma fold_Rmax_ge l h : h <= fold_left Rmax l h.
Proof.
  revert h. induction l as [|a l IH]; intros h; simpl; [lra|].
  eapply Rle_trans; [apply (Rmax_l h a) | apply IH].
Qed.

Lemma fold_Rmax_upper l h : Forall (fun x => x <= fold_left Rmax l h) l.
Proof.
  revert h. induction l as [|a l IH]; intros h; simpl; constructor.
  - eapply Rle_trans; [apply (Rmax_r h a) | apply fold_Rmax_ge].
  - apply IH.
Qed.

Lemma fold_Rmax_In l h : In (fold_left Rmax l h) (h :: l).
Proof.
  revert h. induction l as [|a l IH]; intros h; simpl; [now left|].
  destruct (IH (Rmax h a)) as [E|E].
  - rewrite <- E. unfold Rmax. destruct (Rle_dec h a); auto.
  - auto.
Qed.

Lemma Rmaximum_upper l : Forall (fun x => x <= Rmaximum l) l.
Proof.
  destruct l as [|x l]; [constructor|]. simpl. constructor.
  - apply fold_Rmax_ge.
  - apply fold_Rmax_upper.
Qed.

Lemma Rmaximum_In l : l <> [] -> In (Rmaximum l) l.
Proof. destruct l as [|x l]; [congruence|]. intros _. apply fold_Rmax_In. Qed.

End RealLists.

(** ** The winning class *)

Section WinningClass.

Lemma strict_eq_Fin x y : Num.strict_eq (Fin x) (Fin y) = true <-> x = y.
Proof. simpl. destruct (Req_dec_T x y); split; congruence. Qed.

(** [indexOf] finds the first position of a value that occurs. *)
Lemma indexOf_from_first (p : list R) (m : R) (k : Z) :
  In m p ->
  exists i : nat,
    indexOf_from k (map Fin p) (Fin m) = (k + Z.of_nat i)%Z /\
    p !! i = Some m /\
    forall j x, (j < i)%nat -> p !! j = Some x -> x <> m.
Proof.
  revert k. induction p as [|y p IH]; intros k Hin; [destruct Hin|].
  simpl. destruct (Req_dec_T y m) as [->|Hne].
  - exists 0%nat. repeat split; [lia | intros j x Hj; lia].
  - destruct Hin as [->|Hin]; [congruence|].
    destruct (IH (k + 1)%Z Hin) as (i & Hi & Hm & Hlow).
    exists (S i). repeat split; [lia | exact Hm |].
    intros [|j] x Hj Hx; simpl in Hx.
    + congruence.
    + apply (Hlow j x); [lia | exact Hx].
Qed.

Lemma Rmaximum_lookup_le (p : list R) i x : p !! i = Some x -> x <= Rmaximum p.
Proof.
  intros Hx. pose proof (Rmaximum_upper p) as Hall.
  rewrite List.Forall_forall in Hall. apply Hall.
  apply list_elem_of_In. eapply list_elem_of_lookup_2, Hx.
Qed.

Lemma Rmaximum_tie : Rmaximum [2/10; 5/10; 5/10] = 5/10.
Proof.
  simpl. unfold Rmax.
  destruct (Rle_dec (2/10) (5/10)); [|lra].
  destruct (Rle_dec (5/10) (5/10)); lra.
Qed.

(** C9: on a non-empty vector of finite entries (every probability vector is
    one) the winning index is the lowest index that holds the maximum: that
    entry is the maximum, no entry is larger, and every entry before it is
    strictly smaller.  In particular [[0.2, 0.5, 0.5]] gives index 1. *)
Theorem maxIdx_lowest_maximum :
  (forall p : list R, p <> [] ->
     exists i : nat,
       maxIdx (map Fin p) = Z.of_nat i /\
       p !! i = Some (Rmaximum p) /\
       (forall j x, p !! j = Some x -> x <= Rmaximum p) /\
       (forall j x, (j < i)%nat -> p !! j = Some x -> x < Rmaximum p)) /\
  maxIdx [Fin (2/10); Fin (5/10); Fin (5/10)] = 1%Z.
Proof.
  assert (General : forall p : list R, p <> [] ->
     exists i : nat,
       maxIdx (map Fin p) = Z.of_nat i /\
       p !! i = Some (Rmaximum p) /\
       (forall j x, p !! j = Some x -> x <= Rmaximum p) /\
       (forall j x, (j < i)%nat -> p !! j = Some x -> x < Rmaximum p)).
  { intros p Hne.
    destruct (indexOf_from_first p (Rmaximum p) 0 (Rmaximum_In p Hne))
      as (i & Hi & Hm & Hlow).
    exists i. unfold maxIdx, indexOf. destruct p as [|x0 p]; [congruence|].
    rewrite math_max_Fin. repeat split.
    - rewrite Hi. lia.
    - exact Hm.
    - apply Rmaximum_lookup_le.
    - intros j x Hj Hx. pose proof (Rmaximum_lookup_le _ _ _ Hx).
      pose proof (Hlow j x Hj Hx). lra. }
  split; [exact General|].
  destruct (General [2/10; 5/10; 5/10]) as (i & Hi & Hm & _ & Hlow);
    [discriminate|].
  change (maxIdx [Fin (2/10); Fin (5/10); Fin (5/10)])
    with (maxIdx (map Fin [2/10; 5/10; 5/10])).
  rewrite Hi. rewrite Rmaximum_tie in Hm, Hlow.
  destruct i as [|[|[|i]]]; simpl in Hm.
  - injection Hm. lra.
  - reflexivity.
  - specialize (Hlow 1%nat (5/10) ltac:(lia) eq_refl). lra.
  - discriminate.
Qed.

Lemma maxIdx_lowest_maximum_witness :
  exists i : nat,
    maxIdx (map Fin [1/10; 7/10; 2/10]) = Z.of_nat i /\
    [1/10; 7/10; 2/10] !! i = Some (Rmaximum [1/10; 7/10; 2/10]) /\
    (forall j x, [1/10; 7/10; 2/10] !! j = Some x ->
                 x <= Rmaximum [1/10; 7/10; 2/10]) /\
    (forall j x, (j < i)%nat -> [1/10; 7/10; 2/10] !! j = Some x ->
                 x < Rmaximum [1/10; 7/10; 2/10]).
Proof.
  apply (proj1 maxIdx_lowest_maximum [1/10; 7/10; 2/10]). discriminate.
Defined.

End WinningClass.

(** ** Loops over indices *)

Section IndexLoops.

Context {A B : Type}.

(** A loop over the indices of [l] that uses, at index [k + i], only the
    element [l[i]], is a fold over [l]. *)
Lemma fold_left_seq_lookup (f : B -> nat -> B) (g : B -> A -> B) (l : list A) :
  forall (k : nat) (b : B),
    (forall acc i x, l !! i = Some x -> f acc (k + i)%nat = g acc x) ->
    fold_left f (seq k (length l)) b = fold_left g l b.
Proof.
  induction l as [|a l IH]; intros k b H; simpl; [reflexivity|].
  rewrite <- (H b 0%nat a eq_refl), Nat.add_0_r.
  apply IH. intros acc i x Hx.
  rewrite <- (H acc (S i) x Hx). f_equal. lia.
Qed.

End IndexLoops.

(** ** [scoreLinear] on a single row *)

Section LinearSingleRow.

Lemma or_zero_Fin b : Num.or_zero (Some (Fin b)) = Fin b.
Proof.
  simpl. unfold Num.is_zero, Num.zero.
  destruct (Req_dec_T b 0); congruence.
Qed.

Lemma softmax_singleton (s : R) : softmax [Fin s] = [Fin 1].
Proof.
  pose proof (exp_pos (s + - s)) as Hpos.
  unfold softmax, sum, Num.math_max. simpl.
  rewrite is_zero_false by lra. do 2 f_equal. field. lra.
Qed.

Lemma softmax_length (arr : list num) : length (softmax arr) = length arr.
Proof. unfold softmax. now rewrite !length_map. Qed.

(** C1: a coefficient matrix of one row gets one score and one entry.  For
    every row, intercept and feature vector [scoreLinear] returns the
    softmax of the one-element vector that holds
    [(intercept[0] || 0) + row[0]*xs[0] + ...]; no negated second score is
    made.  On the scenario of the specification (row [[1,0,0,0]], intercept
    [[0]], input [[1,0,0,0]]) the result is [[1]], not the two entries of
    the softmax of [[1, -1]]. *)
Theorem scoreLinear_one_row_one_entry :
  (forall row intercept xs : list num,
      scoreLinear [row] intercept xs =
        softmax [add_products (Num.or_zero (intercept !! 0%nat)) row xs] /\
      length (scoreLinear [row] intercept xs) = 1%nat) /\
  scoreLinear [[Fin 1; Fin 0; Fin 0; Fin 0]] [Fin 0]
              [Fin 1; Fin 0; Fin 0; Fin 0] = [Fin 1] /\
  scoreLinear [[Fin 1; Fin 0; Fin 0; Fin 0]] [Fin 0]
              [Fin 1; Fin 0; Fin 0; Fin 0] <> softmax [Fin 1; Fin (-1)].
Proof.
  assert (E : scoreLinear [[Fin 1; Fin 0; Fin 0; Fin 0]] [Fin 0]
                [Fin 1; Fin 0; Fin 0; Fin 0] = [Fin 1]).
  { unfold scoreLinear. cbn [imap].
    replace (add_products (Num.or_zero ([Fin 0] !! 0%nat))
               [Fin 1; Fin 0; Fin 0; Fin 0] [Fin 1; Fin 0; Fin 0; Fin 0])
      with (Fin 1); [apply softmax_singleton|].
    unfold add_products. simpl. rewrite is_zero_true. unfold Num.zero.
    simpl. f_equal. lra. }
  split; [|split].
  - intros row intercept xs. split; [reflexivity|].
    unfold scoreLinear. now rewrite softmax_length.
  - exact E.
  - rewrite E. intros H. apply (f_equal (@length num)) in H.
    rewrite softmax_length in H. discriminate H.
Qed.

End LinearSingleRow.

(** ** [scaleFeatures] *)

Section Scaler.

Lemma sub_NaN (v : num) : (v - NaN)%num = NaN.
Proof. now destruct v. Qed.

Lemma div_NaN_l (v : num) : (NaN / v)%num = NaN.
Proof. reflexivity. Qed.

Lemma div_NaN_r (v : num) : (v / NaN)%num = NaN.
Proof. now destruct v. Qed.

(** C4, as the code has it: [scaleFeatures] compares no lengths and reports
    no error.  It returns one entry per raw entry,
    [(raw[i] - mean[i]) / scale[i]] wherever the scaler has an index [i],
    and [NaN] at an index the scaler lacks. *)
Theorem scaleFeatures_elementwise (exportData : export_data) (raw : list num) :
  length (scaleFeatures exportData raw) = length raw /\
  (forall i v m s,
      raw !! i = Some v ->
      scaler_mean exportData !! i = Some m ->
      scaler_scale exportData !! i = Some s ->
      scaleFeatures exportData raw !! i = Some ((v - m) / s)%num) /\
  (forall i v,
      raw !! i = Some v ->
      scaler_mean exportData !! i = None \/
      scaler_scale exportData !! i = None ->
      scaleFeatures exportData raw !! i = Some NaN).
Proof.
  unfold scaleFeatures. split; [apply length_imap|]. split.
  - intros i v m s Hv Hm Hs. now rewrite list_lookup_imap, Hv, Hm, Hs.
  - intros i v Hv [Hm|Hs]; rewrite list_lookup_imap, Hv; simpl.
    + now rewrite Hm, sub_NaN.
    + now rewrite Hs, div_NaN_r.
Qed.

Lemma scaleFeatures_elementwise_witness :
  scaleFeatures unit_scaler [Fin 3; Fin 4] !! 0%nat =
    Some ((Fin 3 - Fin 0) / Fin 1)%num /\
  scaleFeatures unit_scaler [Fin 3; Fin 4] !! 1%nat = Some NaN.
Proof.
  destruct (scaleFeatures_elementwise unit_scaler [Fin 3; Fin 4])
    as (_ & Hin & Hout).
  split.
  - apply (Hin 0%nat (Fin 3) (Fin 0) (Fin 1)); reflexivity.
  - apply (Hout 1%nat (Fin 4)); [reflexivity | left; reflexivity].
Defined.

(** Two raw values for a scaler of one feature: the call returns a
    two-element vector; nothing signals the mismatch. *)
Lemma scaleFeatures_length_counterexample :
  length [Fin 3; Fin 4] <> length (scaler_mean unit_scaler) /\
  scaleFeatures unit_scaler [Fin 3; Fin 4] = [Fin 3; NaN].
Proof.
  split; [discriminate|].
  unfold scaleFeatures, unit_scaler. simpl.
  rewrite is_zero_false by lra. do 2 f_equal. lra.
Qed.

End Scaler.

(** ** [predictRF] *)

Section Forest.

Lemma sum_zeros n : sum (replicate n Num.zero) = Num.zero.
Proof.
  unfold sum. induction n as [|n IH]; [reflexivity|].
  cbn [replicate fold_left].
  replace (Num.zero + Num.zero)%num with Num.zero; [exact IH|].
  unfold Num.zero. simpl. f_equal. lra.
Qed.

Lemma zeros_over_zero n :
  map (fun v => (v / Num.zero)%num) (replicate n Num.zero) = replicate n NaN.
Proof.
  induction n as [|n IH]; [reflexivity|].
  simpl replicate. simpl map. rewrite IH. f_equal. apply div_zero_zero.
Qed.

Lemma predictRF_no_trees fuel exportData rfModel xs :
  trees rfModel = [] ->
  predictRF fuel exportData rfModel xs =
    Ret (replicate (nClasses exportData rfModel) NaN).
Proof.
  intros Hnil. unfold predictRF, aggregate. rewrite Hnil. simpl.
  unfold mret, outcome_ret. f_equal.
  rewrite sum_zeros. apply zeros_over_zero.
Qed.

Lemma lookup_over_zero (agg : list num) (i : nat) :
  sum agg = Num.zero ->
  agg !! i = Some Num.zero ->
  map (fun v => (v / sum agg)%num) agg !! i = Some NaN.
Proof.
  intros Htotal Hi.
  change (map (fun v => (v / sum agg)%num) agg)
    with ((fun v => (v / sum agg)%num) <$> agg).
  rewrite list_lookup_fmap, Hi, Htotal. simpl. f_equal. apply div_zero_zero.
Qed.


Lemma aggregate_zero_leaf :
  aggregate 1 three_classes (RfModel (Some 2%nat) [zero_leaf]) [Fin 1] =
    Ret [Fin 0; Fin 0].
Proof.
  unfold aggregate, zero_leaf, add_counts, js_set, Num.zero. simpl.
  unfold mret, outcome_ret. do 2 f_equal; [|f_equal]; f_equal; lra.
Qed.



End Forest.

(** ** The single-model script *)

Section SingleModel.

(** The script scales as [scaleFeatures] does, scores every row as
    [scoreLinear] does but without the [|| 0] on the intercept, and reports
    the index that [maxIdx] picks. *)
Lemma predictFromFeatures_unfold (model : Single.model_params)
    (features : list num) :
  let exportData :=
    ExportData (Single.scaler_mean model) (Single.scaler_scale model)
               (Single.class_names model) ∅ in
  let xs := scaleFeatures exportData features in
  let p := Single.predictFromFeatures model features in
  Single.probs p =
    softmax (imap (fun c row =>
                     add_products (Num.of_read (Single.intercept model !! c))
                                  row xs)
                  (Single.coef model)) /\
  Single.classIndex p = maxIdx (Single.probs p) /\
  Single.className p = read (Single.class_names model) (Single.classIndex p).
Proof. repeat split. Qed.

End SingleModel.

(** ** [predictWithModel] *)

Section Dispatch.

Lemma bind_Some_not_null {A} (m : outcome A) :
  (probs ← m; mret (Some probs)) <> Ret None.
Proof. destruct m; discriminate. Qed.

(** C5, as the code has it: [predictWithModel] has one answer for a name
    it cannot serve, [null], and returns it exactly when the bundle has no
    record under the name or the record's type is none of ['linear'],
    ['rf'] and ['mlp'].  A record of one of these three types is handed to
    [scoreLinear], [predictRF] or [mlpPredict], whose result, never [null],
    is returned. *)
Theorem predictWithModel_dispatch (fuel : nat) (exportData : export_data)
    (modelName : string) (xs : list num) :
  (predictWithModel fuel exportData modelName xs = Ret None <->
   models exportData !! modelName = None \/
   models exportData !! modelName = Some Other) /\
  (forall coef intercept,
      models exportData !! modelName = Some (Linear coef intercept) ->
      predictWithModel fuel exportData modelName xs =
        Ret (Some (scoreLinear coef intercept xs))) /\
  (forall m,
      models exportData !! modelName = Some (Rf m) ->
      predictWithModel fuel exportData modelName xs =
        (probs ← predictRF fuel exportData m xs; mret (Some probs))) /\
  (forall m,
      models exportData !! modelName = Some (Mlp m) ->
      predictWithModel fuel exportData modelName xs =
        (probs ← mlpPredict m xs; mret (Some probs))).
Proof.
  unfold predictWithModel. split.
  - destruct (models exportData !! modelName) as [[coef intercept|m|m|]|];
      split; auto; try discriminate;
      try (intros [H|H]; discriminate);
      intros H; exfalso; exact (bind_Some_not_null _ H).
  - repeat split; intros; match goal with H : _ = _ |- _ => now rewrite H end.
Qed.

Lemma two_models_logistic :
  models two_models !! "logistic" =
    Some (Linear [[Fin 1; Fin 0]; [Fin 0; Fin 1]] [Fin 0; Fin 0]).
Proof.
  unfold two_models. cbn [models].
  rewrite lookup_insert_ne by discriminate. apply lookup_singleton_eq.
Qed.

Lemma two_models_svm : models two_models !! "svm" = Some Other.
Proof. unfold two_models. cbn [models]. apply lookup_insert_eq. Qed.

Lemma two_models_absent : models two_models !! "mlp" = None.
Proof.
  unfold two_models. cbn [models].
  rewrite lookup_insert_ne by discriminate.
  apply lookup_singleton_ne. discriminate.
Qed.

(** A bundle with a linear model and a record of another type: the first
    is scored by [scoreLinear], the second answered with [null]. *)
Lemma predictWithModel_dispatch_witness :
  predictWithModel 0 two_models "logistic" [Fin 1; Fin 0] =
    Ret (Some (scoreLinear [[Fin 1; Fin 0]; [Fin 0; Fin 1]] [Fin 0; Fin 0]
                           [Fin 1; Fin 0])) /\
  predictWithModel 0 two_models "svm" [Fin 1; Fin 0] = Ret None.
Proof.
  split.
  - apply (proj1 (proj2 (predictWithModel_dispatch 0 two_models "logistic"
                           [Fin 1; Fin 0]))).
    exact two_models_logistic.
  - apply (proj2 (proj1 (predictWithModel_dispatch 0 two_models "svm"
                           [Fin 1; Fin 0]))).
    right. exact two_models_svm.
Defined.

(** The bundle holds a record under ["svm"], of a type that is none of the
    three: no predictor is run on it, and the answer is the [null] that an
    absent name gets. *)
Lemma predictWithModel_unknown_type_counterexample :
  models two_models !! "svm" = Some Other /\
  models two_models !! "mlp" = None /\
  predictWithModel 0 two_models "svm" [Fin 1; Fin 0] = Ret None /\
  predictWithModel 0 two_models "mlp" [Fin 1; Fin 0] = Ret None.
Proof.
  split; [exact two_models_svm|]. split; [exact two_models_absent|].
  unfold predictWithModel.
  now rewrite two_models_svm, two_models_absent.
Qed.

End Dispatch.

(** ** [predictTree]: the loop *)

Section TreeLoop.

Variable treeNodes : list node.
Variable xs : list num.

Lemma read_is_Some {A} (l : list A) (i : Z) :
  is_Some (read l i) <-> (0 <= i < Z.of_nat (length l))%Z.
Proof.
  unfold read. destruct (Z.ltb_spec i 0) as [Hneg|Hpos].
  - split; [intros [x Hx]; discriminate | lia].
  - rewrite lookup_lt_is_Some. lia.
Qed.

Lemma visit_Fault i : visit treeNodes xs i = Fault <-> read treeNodes i = None.
Proof.
  unfold visit. destruct (read treeNodes i) as [n|]; [|tauto].
  split; [|discriminate].
  destruct (_ && _)%bool; [discriminate|].
  destruct (Num.le _ _); discriminate.
Qed.

Lemma run_goto fuel i next :
  visit treeNodes xs i = Goto next ->
  predictTree_from (S fuel) treeNodes xs i =
  predictTree_from fuel treeNodes xs next.
Proof. intros V. simpl. now rewrite V. Qed.

(** More fuel does not change a call that has stopped. *)
Lemma run_stable fuel :
  forall i r, predictTree_from fuel treeNodes xs i = r -> r <> OutOfFuel ->
    forall fuel', (fuel <= fuel')%nat ->
      predictTree_from fuel' treeNodes xs i = r.
Proof.
  induction fuel as [|fuel IH]; intros i r Hr Hne fuel' Hle.
  - simpl in Hr. congruence.
  - destruct fuel' as [|fuel']; [lia|]. simpl in *.
    destruct (visit treeNodes xs i); try assumption.
    apply (IH _ _ Hr Hne). lia.
Qed.

Lemma walk_snoc k i j next :
  walk treeNodes xs k i j -> visit treeNodes xs j = Goto next ->
  walk treeNodes xs (S k) i next.
Proof.
  induction 1 as [i|k i n j V W IH]; intros Vj.
  - eapply walk_turn; [exact Vj | constructor].
  - eapply walk_turn; [exact V | now apply IH].
Qed.

Lemma walk_run k i j :
  walk treeNodes xs k i j ->
  forall fuel, predictTree_from (k + fuel) treeNodes xs i =
               predictTree_from fuel treeNodes xs j.
Proof.
  induction 1 as [i|k i n j V W IH]; intros fuel; [reflexivity|].
  change (S k + fuel)%nat with (S (k + fuel)). now rewrite (run_goto _ _ _ V).
Qed.

Lemma walk_short k i j :
  walk treeNodes xs k i j ->
  forall fuel, (fuel <= k)%nat ->
    predictTree_from fuel treeNodes xs i = OutOfFuel.
Proof.
  induction 1 as [i|k i n j V W IH]; intros [|fuel] Hle;
    try reflexivity; [lia|].
  rewrite (run_goto _ _ _ V). apply IH. lia.
Qed.

(** A walk that comes back to its start never stops. *)
Lemma cycle_never_stops k i :
  walk treeNodes xs (S k) i i ->
  forall fuel, predictTree_from fuel treeNodes xs i = OutOfFuel.
Proof.
  intros W fuel. induction (lt_wf fuel) as [fuel _ IH].
  destruct (le_lt_dec fuel (S k)) as [Hle|Hgt].
  - now apply (walk_short _ _ _ W).
  - replace fuel with (S k + (fuel - S k))%nat by lia.
    rewrite (walk_run _ _ _ W). apply IH. lia.
Qed.

Lemma revisit_never_stops k k' i :
  walk treeNodes xs k 0%Z i -> walk treeNodes xs (S k') i i ->
  forall fuel, predictTree fuel treeNodes xs = OutOfFuel.
Proof.
  intros W C fuel. unfold predictTree.
  destruct (le_lt_dec fuel k) as [Hle|Hgt].
  - now apply (walk_short _ _ _ W).
  - replace fuel with (k + (fuel - k))%nat by lia.
    rewrite (walk_run _ _ _ W). now apply (cycle_never_stops k').
Qed.

Lemma in_range_indices (seen : list Z) :
  (forall j, j ∈ seen -> (0 <= j < Z.of_nat (length treeNodes))%Z) ->
  NoDup seen -> (length seen <= length treeNodes)%nat.
Proof.
  intros Hrange Hnd.
  assert (H : (length seen <=
               length (Z.of_nat <$> seq 0 (length treeNodes)))%nat);
    [|now rewrite length_fmap, length_seq in H].
  apply submseteq_length, NoDup_submseteq; [exact Hnd|].
  intros j Hj. specialize (Hrange j Hj).
  apply list_elem_of_fmap. exists (Z.to_nat j). split; [lia|].
  apply list_elem_of_In, in_seq. lia.
Qed.

(** The indices already walked through are distinct, so the walk from [i]
    has at most [fuel] fresh indices left. *)
Lemma run_bounded fuel :
  forall (seen : list Z) (i : Z),
    NoDup seen ->
    (forall j, j ∈ seen ->
       (0 <= j < Z.of_nat (length treeNodes))%Z /\
       exists k, walk treeNodes xs (S k) j i) ->
    (length seen + fuel)%nat = length treeNodes ->
    is_Some (read treeNodes i) ->
    (forall f, predictTree_from f treeNodes xs i = OutOfFuel) \/
    (exists counts, predictTree_from fuel treeNodes xs i = Ret counts) \/
    predictTree_from (S fuel) treeNodes xs i = TypeError.
Proof.
  induction fuel as [|fuel IH]; intros seen i Hnd Hseen Hlen Hi;
    destruct (decide (i ∈ seen)) as [Hin|Hout];
    try (destruct (Hseen i Hin) as [_ [k W]];
         left; exact (cycle_never_stops k i W)).
  - exfalso.
    assert (Hbound : (length (i :: seen) <= length treeNodes)%nat).
    { apply in_range_indices; [|now apply NoDup_cons_2].
      intros j Hj. apply elem_of_cons in Hj as [->|Hj].
      - now apply read_is_Some.
      - now apply Hseen. }
    simpl in Hbound. lia.
  - destruct (visit treeNodes xs i) as [counts|next|] eqn:V.
    + right. left. exists counts. simpl. now rewrite V.
    + destruct (read treeNodes next) as [n|] eqn:Hnext.
      * destruct (IH (i :: seen) next) as [Hloop|[[counts Hret]|Herr]].
        -- now apply NoDup_cons_2.
        -- intros j Hj. apply elem_of_cons in Hj as [->|Hj].
           ++ split; [now apply read_is_Some|].
              exists 0%nat. eapply walk_turn; [exact V | constructor].
           ++ destruct (Hseen j Hj) as [Hr [k W]]. split; [exact Hr|].
              exists (S k). now apply (walk_snoc _ _ _ _ W).
        -- simpl. lia.
        -- rewrite Hnext. eauto.
        -- left. intros [|f]; [reflexivity|].
           rewrite (run_goto _ _ _ V). apply Hloop.
        -- right. left. exists counts. now rewrite (run_goto _ _ _ V).
        -- right. right. now rewrite (run_goto _ _ _ V).
      * right. right. rewrite (run_goto _ _ _ V). simpl.
        apply visit_Fault in Hnext. now rewrite Hnext.
    + apply visit_Fault in V. rewrite V in Hi. destruct Hi; discriminate.
Qed.

(** A call stops within the node count, or never. *)
Lemma predictTree_trichotomy :
  (exists counts, predictTree (length treeNodes) treeNodes xs = Ret counts) \/
  predictTree (S (length treeNodes)) treeNodes xs = TypeError \/
  (forall fuel, predictTree fuel treeNodes xs = OutOfFuel).
Proof.
  unfold predictTree.
  destruct (read treeNodes 0%Z) as [n|] eqn:Hroot.
  - assert (Hseen : forall j : Z, j ∈ @nil Z ->
              (0 <= j < Z.of_nat (length treeNodes))%Z /\
              exists k, walk treeNodes xs (S k) j 0%Z)
      by (intros j Hj; inversion Hj).
    assert (Hroot' : is_Some (read treeNodes 0%Z)) by (rewrite Hroot; eauto).
    destruct (run_bounded (length treeNodes) [] 0%Z (@NoDup_nil_2 Z)
                Hseen eq_refl Hroot') as [H|[H|H]]; auto.
  - right. left. simpl. apply visit_Fault in Hroot. now rewrite Hroot.
Qed.

End TreeLoop.

(** ** [predictTree] and the traversal of the specification *)

Section Traversal.

Variable treeNodes : list node.
Variable xs : list num.

Lemma read_map {A B} (f : A -> B) (l : list A) (i : Z) :
  read (map f l) i = f <$> read l i.
Proof. unfold read. destruct (i <? 0)%Z; [reflexivity | apply list_lookup_fmap]. Qed.

Lemma read_spec_leaf i counts :
  read (map as_spec_node treeNodes) i = Some (SLeaf counts) ->
  exists n, read treeNodes i = Some n /\ is_leaf n = true /\ value n = counts.
Proof.
  rewrite read_map. destruct (read treeNodes i) as [n|]; [|discriminate].
  unfold as_spec_node. simpl. destruct (is_leaf n) eqn:L; [|discriminate].
  intros [= <-]. eauto.
Qed.

Lemma read_spec_internal i f th l r :
  read (map as_spec_node treeNodes) i = Some (Internal f th l r) ->
  exists n, read treeNodes i = Some n /\ is_leaf n = false /\
            feature n = f /\ threshold n = th /\ left n = l /\ right n = r.
Proof.
  rewrite read_map. destruct (read treeNodes i) as [n|]; [|discriminate].
  unfold as_spec_node. simpl. destruct (is_leaf n) eqn:L; [discriminate|].
  intros [= <- <- <- <-]. exists n. repeat split; auto.
Qed.

Lemma visit_leaf i n :
  read treeNodes i = Some n -> is_leaf n = true ->
  visit treeNodes xs i = Leaf (value n).
Proof. unfold visit, is_leaf. now intros -> ->. Qed.

Lemma visit_internal i n :
  read treeNodes i = Some n -> is_leaf n = false ->
  visit treeNodes xs i =
    if Num.le (Num.of_read (read xs (feature n))) (threshold n)
    then Goto (left n) else Goto (right n).
Proof. unfold visit, is_leaf. now intros -> ->. Qed.

Lemma traverse_run i counts :
  traverse_from (map as_spec_node treeNodes) xs i counts ->
  exists fuel, predictTree_from fuel treeNodes xs i = Ret counts.
Proof.
  induction 1 as [i counts Hi | i f th l r counts Hi Hle _ [fuel IH]
                 | i f th l r counts Hi Hle _ [fuel IH]].
  - apply read_spec_leaf in Hi as (n & Hn & L & <-).
    exists 1%nat. simpl. now rewrite (visit_leaf _ _ Hn L).
  - apply read_spec_internal in Hi as (n & Hn & L & <- & <- & <- & <-).
    exists (S fuel). simpl. now rewrite (visit_internal _ _ Hn L), Hle.
  - apply read_spec_internal in Hi as (n & Hn & L & <- & <- & <- & <-).
    exists (S fuel). simpl. now rewrite (visit_internal _ _ Hn L), Hle.
Qed.

Lemma run_traverse fuel :
  forall i counts,
    predictTree_from fuel treeNodes xs i = Ret counts ->
    traverse_from (map as_spec_node treeNodes) xs i counts.
Proof.
  induction fuel as [|fuel IH]; intros i counts; simpl; [discriminate|].
  unfold visit. destruct (read treeNodes i) as [n|] eqn:Hn; [|discriminate].
  fold (is_leaf n). destruct (is_leaf n) eqn:L.
  - intros [= <-]. apply traverse_leaf.
    rewrite read_map, Hn. unfold as_spec_node. simpl. now rewrite L.
  - assert (Hs : read (map as_spec_node treeNodes) i =
                 Some (Internal (feature n) (threshold n) (left n) (right n))).
    { rewrite read_map, Hn. unfold as_spec_node. simpl. now rewrite L. }
    destruct (Num.le _ _) eqn:Hle; intros Hrun.
    + eapply traverse_left; [exact Hs | exact Hle | now apply IH].
    + eapply traverse_right; [exact Hs | exact Hle | now apply IH].
Qed.

(** In a well-formed tree the walk from any index in range reaches a leaf. *)
Lemma well_formed_reaches_leaf (rank : Z -> nat) :
  (forall i n, read treeNodes i = Some n -> is_leaf n = false ->
     child_ok treeNodes rank i (left n) /\
     child_ok treeNodes rank i (right n)) ->
  forall bound i, (rank i <= bound)%nat -> is_Some (read treeNodes i) ->
    exists fuel counts, predictTree_from fuel treeNodes xs i = Ret counts.
Proof.
  intros Hwf bound. induction bound as [|bound IH]; intros i Hrank [n Hn];
    destruct (is_leaf n) eqn:L;
    try (exists 1%nat, (value n); simpl; now rewrite (visit_leaf _ _ Hn L)).
  - destruct (Hwf i n Hn L) as [[_ Hl] _]. lia.
  - destruct (Hwf i n Hn L) as [[Hl Hlr] [Hr Hrr]].
    destruct (Num.le (Num.of_read (read xs (feature n))) (threshold n)) eqn:Hle.
    + destruct (IH (left n)) as (fuel & counts & Hrun); [lia | exact Hl |].
      exists (S fuel), counts. simpl.
      now rewrite (visit_internal _ _ Hn L), Hle.
    + destruct (IH (right n)) as (fuel & counts & Hrun); [lia | exact Hr |].
      exists (S fuel), counts. simpl.
      now rewrite (visit_internal _ _ Hn L), Hle.
Qed.

Lemma well_formed_returns :
  well_formed treeNodes ->
  exists counts, predictTree (length treeNodes) treeNodes xs = Ret counts.
Proof.
  intros [Hne [rank Hwf]].
  assert (Hroot : is_Some (read treeNodes 0%Z)).
  { apply read_is_Some. destruct treeNodes; [congruence | simpl; lia]. }
  destruct (well_formed_reaches_leaf rank Hwf (rank 0%Z) 0%Z (le_n _) Hroot)
    as (fuel & counts & Hrun).
  assert (Hne' : Ret counts <> OutOfFuel) by discriminate.
  destruct (predictTree_trichotomy treeNodes xs) as [H|[H|H]].
  - exact H.
  - unfold predictTree in H.
    assert (Hret := run_stable treeNodes xs fuel _ _ Hrun Hne'
                      (Nat.max fuel (S (length treeNodes))) (Nat.le_max_l _ _)).
    assert (Herr := run_stable treeNodes xs (S (length treeNodes)) _ _ H
                      ltac:(discriminate)
                      (Nat.max fuel (S (length treeNodes))) (Nat.le_max_r _ _)).
    congruence.
  - unfold predictTree in H. rewrite H in Hrun. discriminate.
Qed.

End Traversal.

Lemma le_Fin_refl x : Num.le (Fin x) (Fin x) = true.
Proof. simpl. destruct (Rle_dec x x); [reflexivity | lra]. Qed.

(** The layout check implies well-formedness. *)
Lemma preorder_layout_well_formed (treeNodes : list node) :
  preorder_layout treeNodes = true -> well_formed treeNodes.
Proof.
  unfold preorder_layout. intros H. apply andb_prop in H as [Hne Hall].
  split; [destruct treeNodes; [discriminate Hne | discriminate]|].
  exists (fun i => (length treeNodes - Z.to_nat i)%nat).
  intros i n Hn L.
  assert (Hi : (0 <= i < Z.of_nat (length treeNodes))%Z)
    by (apply read_is_Some; rewrite Hn; eauto).
  unfold read in Hn. destruct (i <? 0)%Z; [discriminate|].
  rewrite forallb_forall in Hall.
  assert (Hc : (is_leaf n ||
                (child_after (length treeNodes) (Z.to_nat i) (left n) &&
                 child_after (length treeNodes) (Z.to_nat i) (right n)))%bool
               = true).
  { apply Hall. apply list_elem_of_In.
    apply (list_elem_of_lookup_2 _ (Z.to_nat i)).
    now rewrite list_lookup_imap, Hn. }
  rewrite L in Hc. simpl in Hc. apply andb_prop in Hc as [Hl Hr].
  unfold child_after in Hl, Hr.
  apply andb_prop in Hl as [Hl1 Hl2]. apply andb_prop in Hr as [Hr1 Hr2].
  apply Z.ltb_lt in Hl1, Hl2, Hr1, Hr2.
  unfold child_ok. rewrite !read_is_Some. repeat split; lia.
Qed.

Section TreeClaims.

Lemma visit_cyclic xs : visit cyclic_tree xs 0%Z = Goto 0%Z.
Proof.
  unfold visit, cyclic_tree. simpl.
  now destruct (Num.le (Num.of_read (read xs 0%Z)) (Fin 0)).
Qed.

Lemma cyclic_walk xs : walk cyclic_tree xs 1 0%Z 0%Z.
Proof. eapply walk_turn; [apply visit_cyclic | constructor]. Qed.




Lemma stump_well_formed : well_formed stump.
Proof. apply preorder_layout_well_formed. reflexivity. Qed.

(** The scenario of the specification: feature 0 is 0.2, at most the
    threshold 0.5, so the traversal ends in the left leaf. *)
Example predictTree_stump_left :
  predictTree 3 stump [Fin (2/10)] = Ret [Fin 5; Fin 0].
Proof.
  unfold predictTree, stump. simpl. unfold visit. simpl.
  destruct (Rle_dec (2/10) (5/10)); [reflexivity | lra].
Qed.

(** C8: [predictTree] is the traversal of the specification.  It returns
    some counts exactly when the traversal from index 0, which goes left
    when [xs[featureIndex] <= threshold] and right otherwise, stops at a leaf
    with these counts; on a well-formed tree it does return, within as many
    turns as the tree has nodes; and a feature equal to the threshold goes
    left. *)
Theorem predictTree_is_traverse (treeNodes : list node) (xs : list num) :
  (forall counts,
      traverse (map as_spec_node treeNodes) xs counts <->
      exists fuel, predictTree fuel treeNodes xs = Ret counts) /\
  (well_formed treeNodes ->
   exists counts,
     predictTree (length treeNodes) treeNodes xs = Ret counts /\
     traverse (map as_spec_node treeNodes) xs counts) /\
  (forall i n x,
      read treeNodes i = Some n -> is_leaf n = false ->
      read xs (feature n) = Some (Fin x) -> threshold n = Fin x ->
      visit treeNodes xs i = Goto (left n)).
Proof.
  split; [|split].
  - intros counts. split.
    + apply traverse_run.
    + intros [fuel Hrun]. exact (run_traverse treeNodes xs fuel 0%Z counts Hrun).
  - intros Hwf. destruct (well_formed_returns treeNodes xs Hwf) as [counts Hrun].
    exists counts. split; [exact Hrun|].
    exact (run_traverse treeNodes xs _ 0%Z counts Hrun).
  - intros i n x Hn L Hx Hth.
    rewrite (visit_internal treeNodes xs i n Hn L), Hx, Hth. simpl Num.of_read.
    now rewrite le_Fin_refl.
Qed.

Lemma predictTree_is_traverse_witness :
  exists counts,
    predictTree (length stump) stump [Fin (2/10)] = Ret counts /\
    traverse (map as_spec_node stump) [Fin (2/10)] counts.
Proof.
  apply (proj1 (proj2 (predictTree_is_traverse stump [Fin (2/10)]))).
  apply stump_well_formed.
Defined.

End TreeClaims.

(** ** [mlpPredict] *)

Section FeedForward.

Lemma relu_ReLU v : relu v = ReLU v.
Proof. unfold relu, ReLU, Num.math_max. simpl. now destruct v. Qed.

(** The inner loop of a layer, on the rows that the activation reaches. *)
Lemma neuron_loop (j : nat) (W : list (list num)) :
  forall (a : list num) (s : num),
    (length a <= length W)%nat ->
    fold_left
      (fun (acc : outcome num) '(ai, Wi) =>
         s ← acc; mret (s + ai * Num.of_read (Wi !! j))%num)
      (zip a W) (Ret s) =
    Ret (fold_left Num.add (zip_with Num.mul a (column W j)) s).
Proof.
  induction W as [|Wi W IH]; intros [|ai a] s Hlen; simpl in *;
    try reflexivity.
  apply IH. lia.
Qed.

Lemma neuron (j : nat) (W : list (list num)) (a : list num) (bj : num) :
  (length a <= length W)%nat ->
  fold_left
    (fun (acc : outcome num) i =>
       s ← acc;
       Wi ← defined (W !! i);
       mret (s + Num.of_read (a !! i) * Num.of_read (Wi !! j))%num)
    (seq 0 (length a)) (Ret bj) =
  Ret (fold_left Num.add (zip_with Num.mul a (column W j)) bj).
Proof.
  intros Hlen.
  replace (length a) with (length (zip a W))
    by (rewrite length_zip_with; lia).
  rewrite (fold_left_seq_lookup _
             (fun (acc : outcome num) '(ai, Wi) =>
                s ← acc; mret (s + ai * Num.of_read (Wi !! j))%num)).
  - now rewrite neuron_loop.
  - intros acc i [ai Wi] Hi. simpl.
    apply lookup_zip_with_Some in Hi as (ai' & Wi' & E & Ha & HW).
    inversion E; subst. rewrite Ha, HW. now destruct acc.
Qed.

Lemma mapM_Ret {A B} (f : A -> outcome B) (h : A -> B) (l : list A) :
  (forall x, f x = Ret (h x)) -> mapM f l = Ret (map h l).
Proof.
  intros H. induction l as [|x l IH]; simpl; [reflexivity|].
  now rewrite H, IH.
Qed.

Lemma map_seq_imap {A B} (h : nat -> A -> B) (d : nat -> B) (l : list A) :
  forall k,
    (forall i x, l !! i = Some x -> d (k + i)%nat = h (k + i)%nat x) ->
    map d (seq k (length l)) = imap (fun i => h (k + i)%nat) l.
Proof.
  induction l as [|x l IH]; intros k H; simpl; [reflexivity|].
  f_equal.
  - rewrite <- (H 0%nat x eq_refl). f_equal. lia.
  - rewrite (IH (S k)).
    + apply imap_ext. intros i y _. simpl. f_equal. lia.
    + intros i y Hy. replace (S k + i)%nat with (k + S i)%nat by lia.
      now apply H.
Qed.

(** One layer: the loops compute [layer_out]. *)
Lemma dense_layer_out (L : layer) (a : list num) :
  (length a <= length (weights L))%nat ->
  dense (weights L) (bias L) a = Ret (layer_out L a).
Proof.
  intros Hlen. unfold dense.
  rewrite (mapM_Ret _
    (fun j => fold_left Num.add (zip_with Num.mul a (column (weights L) j))
                        (Num.of_read (bias L !! j)))).
  2:{ intros j. now apply neuron. }
  f_equal. unfold layer_out.
  rewrite (map_seq_imap
             (fun j bj =>
                fold_left Num.add (zip_with Num.mul a (column (weights L) j))
                          bj)
             _ (bias L) 0%nat).
  - reflexivity.
  - intros i x Hx. simpl. now rewrite Hx.
Qed.

Lemma length_layer_out L a : length (layer_out L a) = length (bias L).
Proof. unfold layer_out. apply length_imap. Qed.

(** The loop over the layers, from layer [k] on. *)
Lemma layers_loop (layers : list layer) :
  forall (rest : list layer) (k : nat) (a : list num),
    (k + length rest)%nat = length layers ->
    (forall i L, rest !! i = Some L -> layers !! (k + i)%nat = Some L) ->
    chained (length a) rest ->
    fold_left
      (fun acc layer =>
         a ← acc;
         W ← defined (map weights layers !! layer);
         b ← defined (map bias layers !! layer);
         out ← dense W b a;
         mret (if layer <? length layers - 1 then map relu out else out))
      (seq k (length rest)) (Ret a) =
    Ret (forward rest a).
Proof.
  induction rest as [|L rest IH]; intros k a Hk Hat Hch; [reflexivity|].
  destruct Hch as (Hin & _ & Hch).
  assert (HL : layers !! k = Some L)
    by (rewrite <- (Nat.add_0_r k); now apply Hat).
  cbn [length seq fold_left].
  assert (Hstep :
    (Ret a ≫= fun a =>
       W ← defined (map weights layers !! k);
       b ← defined (map bias layers !! k);
       out ← dense W b a;
       mret (if k <? length layers - 1 then map relu out else out)) =
    Ret (if k <? length layers - 1
         then map relu (layer_out L a) else layer_out L a)).
  { change (map weights layers !! k) with ((weights <$> layers) !! k).
    change (map bias layers !! k) with ((bias <$> layers) !! k).
    rewrite !list_lookup_fmap, HL. simpl.
    now rewrite dense_layer_out by lia. }
  rewrite Hstep. clear Hstep. simpl in Hk.
  destruct rest as [|L' rest].
  - replace (k <? length layers - 1)%nat with false
      by (symmetry; apply Nat.ltb_ge; simpl in Hk; lia).
    reflexivity.
  - replace (k <? length layers - 1)%nat with true
      by (symmetry; apply Nat.ltb_lt; simpl in Hk; lia).
    rewrite (IH (S k) (map relu (layer_out L a))).
    + change (forward (L :: L' :: rest) a)
        with (forward (L' :: rest) (map ReLU (layer_out L a))).
      now rewrite (map_ext _ _ relu_ReLU).
    + simpl in *. lia.
    + intros i L0 Hi. rewrite <- (Hat (S i) L0 Hi). f_equal. lia.
    + now rewrite length_map, length_layer_out.
Qed.

(** C7: on layers that satisfy the chaining invariant and an input of the
    first layer's input dimension, [mlpPredict] returns the softmax of the
    activation obtained by computing, layer after layer,
    [out[j] = bias[j] + Σ_i a[i] * weights[i][j]], with ReLU after every
    layer but the last and nothing after the last. *)
Theorem mlpPredict_feed_forward (layers : list layer) (xs : list num) :
  chained (length xs) layers ->
  mlpPredict (mlp_of_layers layers) xs = Ret (feed_forward_spec layers xs).
Proof.
  intros Hch. unfold mlpPredict, feed_forward_spec.
  cbn [mlp_of_layers coefs intercepts]. rewrite length_map.
  change (@mret outcome _ _ xs) with (Ret xs).
  rewrite (layers_loop layers layers 0 xs); auto.
Qed.

Lemma identity_layer_out (x y : R) :
  layer_out identity_layer [Fin x; Fin y] = [Fin x; Fin y].
Proof.
  unfold layer_out, identity_layer. simpl.
  f_equal; [|f_equal]; f_equal; lra.
Qed.

(** The scenario of the specification: one layer, so no ReLU; the raw
    output [[2, -3]] goes to softmax as it is. *)
Example feed_forward_single_layer :
  feed_forward_spec [identity_layer] [Fin 2; Fin (-3)] =
  softmax [Fin 2; Fin (-3)].
Proof.
  unfold feed_forward_spec. simpl forward. now rewrite identity_layer_out.
Qed.

(** With a hidden layer in front, its output [[2, -3]] is clamped to
    [[2, 0]] before the last layer. *)
Example feed_forward_hidden_layer :
  feed_forward_spec [identity_layer; identity_layer] [Fin 2; Fin (-3)] =
  softmax [Fin 2; Fin 0].
Proof.
  unfold feed_forward_spec. cbn [forward]. rewrite identity_layer_out.
  assert (E : map ReLU [Fin 2; Fin (-3)] = [Fin 2; Fin 0]).
  { simpl. unfold ReLU, Num.max2, Num.gt, Num.zero.
    destruct (Rlt_dec 0 2); [|lra]. destruct (Rlt_dec 0 (-3)); [lra|].
    reflexivity. }
  now rewrite E, identity_layer_out.
Qed.

Lemma mlpPredict_feed_forward_witness :
  mlpPredict (mlp_of_layers [identity_layer; identity_layer])
             [Fin 2; Fin (-3)] =
  Ret (feed_forward_spec [identity_layer; identity_layer] [Fin 2; Fin (-3)]).
Proof.
  apply mlpPredict_feed_forward. simpl. repeat split; repeat constructor.
Defined.

End FeedForward.

(** * Further properties of the code *)

(** ** [NaN] in sums and maxima *)

Section NotANumber.

Lemma add_NaN_r (a : num) : (a + NaN)%num = NaN.
Proof. now destruct a. Qed.

Lemma mul_NaN_r (a : num) : (a * NaN)%num = NaN.
Proof. now destruct a. Qed.

Lemma max2_NaN_r (a : num) : Num.max2 a NaN = NaN.
Proof. now destruct a. Qed.

Lemma fold_add_NaN (l : list num) : fold_left Num.add l NaN = NaN.
Proof. induction l as [|x l IH]; [reflexivity | exact IH]. Qed.

Lemma fold_add_In_NaN (l : list num) (s : num) :
  In NaN l -> fold_left Num.add l s = NaN.
Proof.
  revert s. induction l as [|x l IH]; intros s; [intros []|].
  intros [->|Hin]; simpl.
  - rewrite add_NaN_r. apply fold_add_NaN.
  - now apply IH.
Qed.

Lemma fold_max2_NaN (l : list num) : fold_left Num.max2 l NaN = NaN.
Proof. induction l as [|x l IH]; [reflexivity | exact IH]. Qed.

Lemma fold_max2_In_NaN (l : list num) (h : num) :
  In NaN l -> fold_left Num.max2 l h = NaN.
Proof.
  revert h. induction l as [|x l IH]; intros h; [intros []|].
  intros [->|Hin]; simpl.
  - rewrite max2_NaN_r. apply fold_max2_NaN.
  - now apply IH.
Qed.

Lemma fold_max2_PInf (l : list num) :
  ~ In NaN l -> fold_left Num.max2 l PInf = PInf.
Proof.
  induction l as [|x l IH]; [reflexivity|]. intros Hn. simpl in *.
  destruct x; try (apply IH; tauto); tauto.
Qed.

Lemma fold_max2_In_PInf (l : list num) (h : num) :
  h <> NaN -> ~ In NaN l -> In PInf l -> fold_left Num.max2 l h = PInf.
Proof.
  revert h. induction l as [|x l IH]; intros h Hh Hn; [intros []|].
  simpl in Hn. intros [->|Hin]; simpl.
  - replace (Num.max2 h PInf) with PInf by (now destruct h).
    apply fold_max2_PInf. tauto.
  - apply IH; [|tauto|exact Hin].
    destruct h, x; simpl; try congruence; try tauto;
      try (destruct (Rlt_dec _ _); congruence).
Qed.

Lemma map_over_NaN (l : list num) :
  map (fun e => (e / NaN)%num) l = replicate (length l) NaN.
Proof.
  induction l as [|e l IH]; [reflexivity|].
  simpl. now rewrite IH, div_NaN_r.
Qed.

Lemma num_eq_dec (a b : num) : {a = b} + {a <> b}.
Proof.
  destruct a as [x| | |], b as [y| | |];
    try (right; discriminate); try (left; reflexivity).
  destruct (Req_dec_T x y); [left; congruence | right; congruence].
Qed.

(** Once the exponentials hold a [NaN], every entry of the result is one. *)
Lemma softmax_NaN_exps (arr : list num) :
  In NaN (map (fun v => Num.exp (v - Num.math_max arr)%num) arr) ->
  softmax arr = replicate (length arr) NaN.
Proof.
  intros Hin. unfold softmax, sum.
  now rewrite (fold_add_In_NaN _ _ Hin), map_over_NaN, length_map.
Qed.

Lemma softmax_In_NaN (arr : list num) :
  In NaN arr -> softmax arr = replicate (length arr) NaN.
Proof.
  intros Hin. apply softmax_NaN_exps.
  unfold Num.math_max. rewrite (fold_max2_In_NaN _ _ Hin).
  apply in_map_iff. exists NaN. split; [reflexivity | exact Hin].
Qed.

Lemma softmax_In_PInf (arr : list num) :
  In PInf arr -> softmax arr = replicate (length arr) NaN.
Proof.
  intros Hin.
  destruct (in_dec num_eq_dec NaN arr) as [Hn|Hn];
    [now apply softmax_In_NaN|].
  apply softmax_NaN_exps. unfold Num.math_max.
  assert (Hh : NInf <> NaN) by discriminate.
  rewrite (fold_max2_In_PInf arr NInf Hh Hn Hin).
  apply in_map_iff. exists PInf. split; [reflexivity | exact Hin].
Qed.

(** X1: a score that is [NaN] or [+Infinity] makes every entry of the
    result of [softmax] [NaN]. *)
Theorem softmax_poisoned (arr : list num) :
  In NaN arr \/ In PInf arr -> softmax arr = replicate (length arr) NaN.
Proof. intros [H|H]; [now apply softmax_In_NaN | now apply softmax_In_PInf]. Qed.

Lemma softmax_poisoned_witness :
  softmax [Fin 1; PInf; Fin 3] = replicate 3 NaN.
Proof. apply (softmax_poisoned [Fin 1; PInf; Fin 3]). right. simpl. tauto. Defined.

End NotANumber.

(** ** [scoreLinear] on any number of rows *)

Section LinearRows.

Lemma fold_left_ext_In {A B} (f g : B -> A -> B) (l : list A) :
  (forall acc x, In x l -> f acc x = g acc x) ->
  forall b, fold_left f l b = fold_left g l b.
Proof.
  induction l as [|x l IH]; intros H b; [reflexivity|]. simpl.
  rewrite (H b x (or_introl eq_refl)). apply IH.
  intros acc y Hy. apply H. now right.
Qed.

(** A row reads the features below its own length only. *)
Lemma add_products_app (s : num) (row xs extra : list num) :
  (length row <= length xs)%nat ->
  add_products s row (xs ++ extra) = add_products s row xs.
Proof.
  intros Hlen. unfold add_products. apply fold_left_ext_In.
  intros acc i Hi. apply in_seq in Hi.
  rewrite lookup_app_l by lia. reflexivity.
Qed.

Lemma fold_products_NaN (row xs : list num) (l : list nat) :
  fold_left
    (fun s i => (s + Num.of_read (row !! i) * Num.of_read (xs !! i))%num)
    l NaN = NaN.
Proof. induction l as [|i l IH]; [reflexivity | exact IH]. Qed.

(** A row longer than the features reads [undefined], and its score is
    [NaN]. *)
Lemma add_products_short (s : num) (row xs : list num) :
  (length xs < length row)%nat -> add_products s row xs = NaN.
Proof.
  intros Hlen. unfold add_products.
  replace (length row) with (length xs + S (length row - S (length xs)))%nat
    by lia.
  rewrite seq_app, fold_left_app. simpl seq. simpl fold_left.
  rewrite (lookup_ge_None_2 xs (length xs)) by lia. simpl Num.of_read.
  rewrite mul_NaN_r, add_NaN_r. apply fold_products_NaN.
Qed.

Lemma fold_products_zip (row : list num) :
  forall (xs : list num) (s : num),
    fold_left (fun s '(r, x) => (s + r * x)%num) (zip row xs) s =
    fold_left Num.add (zip_with Num.mul row xs) s.
Proof.
  induction row as [|r row IH]; intros [|x xs] s; simpl; try reflexivity.
  apply IH.
Qed.

(** The score of a row that has a feature for each of its entries: the
    products [row[i] * xs[i]] added onto [s] one after the other. *)
Lemma add_products_zip (s : num) (row xs : list num) :
  (length row <= length xs)%nat ->
  add_products s row xs = fold_left Num.add (zip_with Num.mul row xs) s.
Proof.
  intros Hlen. unfold add_products.
  replace (length row) with (length (zip row xs))
    by (rewrite length_zip_with; lia).
  rewrite (fold_left_seq_lookup _ (fun s '(r, x) => (s + r * x)%num)).
  - now rewrite fold_products_zip.
  - intros acc i [r x] Hi. simpl.
    apply lookup_zip_with_Some in Hi as (r' & x' & E & -> & ->).
    now inversion E.
Qed.

(** X3: [scoreLinear] returns one entry per row of [coef]; when no row is
    longer than the feature vector, the entries are the softmax of the
    scores [(intercept[c] || 0) + coef[c][0]*xs[0] + coef[c][1]*xs[1] + ...],
    the products of each row with the features it pairs with, added to the
    intercept from left to right. *)
Theorem scoreLinear_rows (coef : list (list num)) (intercept xs : list num) :
  length (scoreLinear coef intercept xs) = length coef /\
  (Forall (fun row => (length row <= length xs)%nat) coef ->
   scoreLinear coef intercept xs =
     softmax (imap (fun c row =>
                      fold_left Num.add (zip_with Num.mul row xs)
                                (Num.or_zero (intercept !! c)))
                   coef)).
Proof.
  unfold scoreLinear. split.
  - now rewrite softmax_length, length_imap.
  - intros Hrows. f_equal. apply imap_ext. intros c row Hc.
    apply add_products_zip.
    rewrite List.Forall_forall in Hrows. apply Hrows.
    apply list_elem_of_In. eapply list_elem_of_lookup_2, Hc.
Qed.

Lemma scoreLinear_rows_witness :
  scoreLinear [[Fin 1; Fin 0]; [Fin 0; Fin 1]; [Fin 1; Fin 1]]
              [Fin 0; Fin 1; Fin 2] [Fin 3; Fin 4] =
    softmax (imap (fun c row =>
                     fold_left Num.add (zip_with Num.mul row [Fin 3; Fin 4])
                       (Num.or_zero ([Fin 0; Fin 1; Fin 2] !! c)))
                  [[Fin 1; Fin 0]; [Fin 0; Fin 1]; [Fin 1; Fin 1]]).
Proof.
  apply (proj2 (scoreLinear_rows
                  [[Fin 1; Fin 0]; [Fin 0; Fin 1]; [Fin 1; Fin 1]]
                  [Fin 0; Fin 1; Fin 2] [Fin 3; Fin 4])).
  repeat constructor.
Defined.

Lemma scoreLinear_intercept_ext (coef : list (list num))
    (i1 i2 xs : list num) :
  (forall c, (c < length coef)%nat ->
     Num.or_zero (i1 !! c) = Num.or_zero (i2 !! c)) ->
  scoreLinear coef i1 xs = scoreLinear coef i2 xs.
Proof.
  intros H. unfold scoreLinear. f_equal. apply imap_ext.
  intros c row Hc. rewrite H; [reflexivity|].
  eapply lookup_lt_Some, Hc.
Qed.

(** X4: an intercept that is missing, or that is [NaN], counts as 0 in
    [scoreLinear]. *)
Theorem scoreLinear_intercept_default (coef : list (list num))
    (xs : list num) :
  scoreLinear coef [] xs =
    scoreLinear coef (replicate (length coef) Num.zero) xs /\
  scoreLinear coef (replicate (length coef) NaN) xs =
    scoreLinear coef (replicate (length coef) Num.zero) xs.
Proof.
  split; apply scoreLinear_intercept_ext; intros c Hc;
    rewrite ?lookup_replicate_2 by exact Hc; simpl;
    now rewrite is_zero_true.
Qed.

(** X5: features past the length of every row do not change what
    [scoreLinear] returns. *)
Theorem scoreLinear_extra_features (coef : list (list num))
    (intercept xs extra : list num) :
  Forall (fun row => (length row <= length xs)%nat) coef ->
  scoreLinear coef intercept (xs ++ extra) = scoreLinear coef intercept xs.
Proof.
  intros Hrows. unfold scoreLinear. f_equal. apply imap_ext.
  intros c row Hc. apply add_products_app.
  rewrite List.Forall_forall in Hrows. apply Hrows.
  apply list_elem_of_In. eapply list_elem_of_lookup_2, Hc.
Qed.

Lemma scoreLinear_extra_features_witness :
  scoreLinear [[Fin 1; Fin 2]] [Fin 0] ([Fin 3; Fin 4] ++ [Fin 5]) =
  scoreLinear [[Fin 1; Fin 2]] [Fin 0] [Fin 3; Fin 4].
Proof.
  apply (scoreLinear_extra_features [[Fin 1; Fin 2]] [Fin 0] [Fin 3; Fin 4]).
  repeat constructor.
Defined.

Lemma scores_short (start : option num -> num) (coef : list (list num))
    (intercept xs : list num) :
  Exists (fun row => (length xs < length row)%nat) coef ->
  In NaN (imap (fun c row => add_products (start (intercept !! c)) row xs)
               coef).
Proof.
  intros Hex. apply List.Exists_exists in Hex as (row & Hin & Hlen).
  apply list_elem_of_In, list_elem_of_lookup in Hin as [c Hc].
  apply list_elem_of_In. apply (list_elem_of_lookup_2 _ c).
  rewrite list_lookup_imap, Hc. simpl. now rewrite add_products_short.
Qed.

(** X6: when a row is longer than the feature vector, every entry of the
    result of [scoreLinear] is [NaN]. *)
Theorem scoreLinear_short_features (coef : list (list num))
    (intercept xs : list num) :
  Exists (fun row => (length xs < length row)%nat) coef ->
  scoreLinear coef intercept xs = replicate (length coef) NaN.
Proof.
  intros Hex. unfold scoreLinear.
  rewrite softmax_In_NaN by (now apply scores_short).
  now rewrite length_imap.
Qed.

Lemma scoreLinear_short_features_witness :
  scoreLinear [[Fin 1; Fin 2]; [Fin 3; Fin 4]] [Fin 0; Fin 0] [Fin 5] =
  replicate 2 NaN.
Proof.
  apply (scoreLinear_short_features [[Fin 1; Fin 2]; [Fin 3; Fin 4]]).
  left. simpl. lia.
Defined.

End LinearRows.

(** ** The winning class among any numbers *)

Section AnyNumbers.

Lemma le_refl (a : num) : a <> NaN -> Num.le a a = true.
Proof.
  destruct a as [x| | |]; simpl; try congruence.
  intros _. destruct (Rle_dec x x); [reflexivity | lra].
Qed.

Lemma le_trans (a b c : num) :
  Num.le a b = true -> Num.le b c = true -> Num.le a c = true.
Proof.
  destruct a as [x| | |], b as [y| | |], c as [z| | |]; simpl;
    try discriminate; try reflexivity.
  destruct (Rle_dec x y), (Rle_dec y z), (Rle_dec x z);
    try discriminate; try reflexivity; lra.
Qed.

Lemma le_NInf (a : num) : Num.le a NInf = true -> a = NInf.
Proof. destruct a; simpl; congruence. Qed.

Lemma strict_eq_refl (a : num) : a <> NaN -> Num.strict_eq a a = true.
Proof.
  destruct a as [x| | |]; simpl; try congruence.
  intros _. destruct (Req_dec_T x x); congruence.
Qed.

Lemma max2_cases (h a : num) : Num.max2 h a = h \/ Num.max2 h a = a.
Proof.
  destruct h as [x| | |], a as [y| | |]; simpl; auto.
  destruct (Rlt_dec x y); auto.
Qed.

Lemma max2_le (h a : num) :
  h <> NaN -> a <> NaN ->
  Num.le h (Num.max2 h a) = true /\ Num.le a (Num.max2 h a) = true.
Proof.
  destruct h as [x| | |], a as [y| | |]; simpl; try congruence;
    intros _ _; try (split; reflexivity).
  - destruct (Rlt_dec x y); simpl;
      [destruct (Rle_dec x y), (Rle_dec y y) | destruct (Rle_dec x x), (Rle_dec y x)];
      try (split; reflexivity); lra.
  - destruct (Rle_dec x x); [split; reflexivity | lra].
  - destruct (Rle_dec y y); [split; reflexivity | lra].
Qed.

(** [Math.max] on arguments without [NaN]: one of the arguments, and none
    of them is larger. *)
Lemma fold_max2_bounds (l : list num) :
  forall h, h <> NaN -> ~ In NaN l ->
    fold_left Num.max2 l h <> NaN /\
    Num.le h (fold_left Num.max2 l h) = true /\
    (forall y, In y l -> Num.le y (fold_left Num.max2 l h) = true) /\
    In (fold_left Num.max2 l h) (h :: l).
Proof.
  induction l as [|x l IH]; intros h Hh Hn.
  - simpl. repeat split; auto using le_refl.
  - simpl in Hn.
    assert (Hx : x <> NaN) by (intros E; apply Hn; now left).
    assert (Hl : ~ In NaN l) by tauto.
    destruct (max2_le h x Hh Hx) as [Hhm Hxm].
    assert (Hm : Num.max2 h x <> NaN)
      by (destruct (max2_cases h x) as [E|E]; now rewrite E).
    destruct (IH (Num.max2 h x) Hm Hl) as (Hf & Hle & Hall & Hin).
    cbn [fold_left]. repeat split.
    + exact Hf.
    + eapply le_trans; eauto.
    + intros y [<-|Hy]; [eapply le_trans; eauto | now apply Hall].
    + destruct Hin as [E|Hin]; [|right; now right].
      rewrite <- E. destruct (max2_cases h x) as [E'|E']; rewrite E';
        [now left | right; now left].
Qed.

Lemma math_max_In (l : list num) :
  l <> [] -> ~ In NaN l -> In (Num.math_max l) l.
Proof.
  intros Hne Hn. unfold Num.math_max.
  assert (Hh : NInf <> NaN) by discriminate.
  destruct (fold_max2_bounds l NInf Hh Hn) as (_ & _ & Hall & [E|Hin]);
    [|exact Hin].
  destruct l as [|x l]; [congruence|].
  rewrite <- E in *. left.
  apply le_NInf, Hall. now left.
Qed.

(** [indexOf]: [-1] when no entry is [===] the value, else the first
    position of such an entry. *)
Lemma indexOf_from_spec (l : list num) (x : num) :
  forall k : Z,
    (indexOf_from k l x = (-1)%Z /\
     forall y, In y l -> Num.strict_eq y x = false) \/
    (exists (i : nat) (y : num),
        indexOf_from k l x = (k + Z.of_nat i)%Z /\
        l !! i = Some y /\
        Num.strict_eq y x = true /\
        forall j z, (j < i)%nat -> l !! j = Some z ->
                    Num.strict_eq z x = false).
Proof.
  induction l as [|v l IH]; intros k.
  - left. split; [reflexivity | intros y []].
  - simpl. destruct (Num.strict_eq v x) eqn:Ev.
    + right. exists 0%nat, v. repeat split; [lia | exact Ev |].
      intros j z Hj. lia.
    + destruct (IH (k + 1)%Z) as [[Hi Hall]|(i & y & Hi & Hy & Ey & Hlow)].
      * left. split; [exact Hi|]. intros y [<-|Hy]; auto.
      * right. exists (S i), y. repeat split; [lia | exact Hy | exact Ey |].
        intros [|j] z Hj Hz; simpl in Hz; [congruence|].
        apply (Hlow j z); [lia | exact Hz].
Qed.

Lemma indexOf_from_NaN (l : list num) :
  forall k, indexOf_from k l NaN = (-1)%Z.
Proof.
  induction l as [|v l IH]; intros k; [reflexivity|].
  simpl. destruct v; apply IH.
Qed.

Lemma maxIdx_In_NaN (l : list num) : In NaN l -> maxIdx l = (-1)%Z.
Proof.
  intros Hin. unfold maxIdx, indexOf, Num.math_max.
  rewrite (fold_max2_In_NaN _ _ Hin). apply indexOf_from_NaN.
Qed.

Lemma maxIdx_first_maximum (l : list num) :
  l <> [] -> ~ In NaN l ->
  exists (i : nat) (x : num),
    maxIdx l = Z.of_nat i /\
    l !! i = Some x /\
    Num.strict_eq x (Num.math_max l) = true /\
    (forall y, In y l -> Num.le y (Num.math_max l) = true) /\
    (forall j y, (j < i)%nat -> l !! j = Some y ->
                 Num.strict_eq y (Num.math_max l) = false).
Proof.
  intros Hne Hn.
  pose proof (math_max_In l Hne Hn) as Hin.
  assert (Hh : NInf <> NaN) by discriminate.
  destruct (fold_max2_bounds l NInf Hh Hn) as (Hm & _ & Hall & _).
  fold (Num.math_max l) in Hm, Hall.
  unfold maxIdx, indexOf.
  destruct (indexOf_from_spec l (Num.math_max l) 0)
    as [[_ Hnone]|(i & y & Hi & Hy & Ey & Hlow)].
  - specialize (Hnone _ Hin). rewrite (strict_eq_refl _ Hm) in Hnone.
    discriminate.
  - exists i, y. repeat split; auto.
Qed.

(** X2: the winning index among any numbers, infinities included.
    [probs.indexOf(Math.max(...probs))] is [-1] exactly when the vector is
    empty or holds a [NaN]; on any other vector it is the first index whose
    entry is [===] the largest entry: no entry is larger, and no entry
    before it equals the largest. *)
Theorem maxIdx_any_numbers (l : list num) :
  (maxIdx l = (-1)%Z <-> l = [] \/ In NaN l) /\
  (l <> [] -> ~ In NaN l ->
   exists (i : nat) (x : num),
     maxIdx l = Z.of_nat i /\
     l !! i = Some x /\
     Num.strict_eq x (Num.math_max l) = true /\
     (forall y, In y l -> Num.le y (Num.math_max l) = true) /\
     (forall j y, (j < i)%nat -> l !! j = Some y ->
                  Num.strict_eq y (Num.math_max l) = false)).
Proof.
  split; [|apply maxIdx_first_maximum].
  split.
  - intros Hidx. destruct l as [|x l]; [now left|]. right.
    destruct (in_dec num_eq_dec NaN (x :: l)) as [Hin|Hn]; [exact Hin|].
    destruct (maxIdx_first_maximum (x :: l)) as (i & y & Hi & _);
      [discriminate | exact Hn |].
    rewrite Hi in Hidx. lia.
  - intros [->|Hin]; [reflexivity | now apply maxIdx_In_NaN].
Qed.

Lemma maxIdx_any_numbers_witness :
  exists (i : nat) (x : num),
    maxIdx [NInf; PInf; Fin 1; PInf] = Z.of_nat i /\
    [NInf; PInf; Fin 1; PInf] !! i = Some x /\
    Num.strict_eq x (Num.math_max [NInf; PInf; Fin 1; PInf]) = true /\
    (forall y, In y [NInf; PInf; Fin 1; PInf] ->
               Num.le y (Num.math_max [NInf; PInf; Fin 1; PInf]) = true) /\
    (forall j y, (j < i)%nat -> [NInf; PInf; Fin 1; PInf] !! j = Some y ->
                 Num.strict_eq y (Num.math_max [NInf; PInf; Fin 1; PInf])
                 = false).
Proof.
  apply (proj2 (maxIdx_any_numbers [NInf; PInf; Fin 1; PInf])).
  - discriminate.
  - simpl. intros [H|[H|[H|[H|[]]]]]; discriminate H.
Defined.

End AnyNumbers.

(** ** [predictFromFeatures] of the single-model script *)

Section SinglePrediction.

(** The scaled features as the script computes them. *)
Lemma scaled_length (mean scale features : list num) :
  length (imap (fun i v =>
                  ((v - Num.of_read (mean !! i)) /
                   Num.of_read (scale !! i))%num) features) =
  length features.
Proof. apply length_imap. Qed.

Lemma read_of_nat {A} (l : list A) (i : nat) : read l (Z.of_nat i) = l !! i.
Proof.
  unfold read. destruct (Z.ltb_spec (Z.of_nat i) 0); [lia|].
  now rewrite Nat2Z.id.
Qed.

Lemma indexOf_from_NaNs (k : Z) (n : nat) (x : num) :
  indexOf_from k (replicate n NaN) x = (-1)%Z.
Proof. revert k. induction n as [|n IH]; intros k; [reflexivity | apply IH]. Qed.

Lemma maxIdx_NaNs (n : nat) : maxIdx (replicate n NaN) = (-1)%Z.
Proof. apply indexOf_from_NaNs. Qed.

Lemma of_read_or_zero (intercept : list num) (c : nat) :
  Forall (fun v => v <> NaN) intercept ->
  (c < length intercept)%nat ->
  Num.of_read (intercept !! c) = Num.or_zero (intercept !! c).
Proof.
  intros Hall Hc. apply lookup_lt_is_Some in Hc as [v Hv]. rewrite Hv.
  rewrite List.Forall_forall in Hall.
  assert (Hn : v <> NaN).
  { apply Hall, list_elem_of_In. eapply list_elem_of_lookup_2, Hv. }
  destruct v as [r| | |]; try reflexivity; [|congruence].
  now rewrite or_zero_Fin.
Qed.

(** X7: when every row has an intercept and no intercept is [NaN], the
    single-model script computes the probabilities that [scoreLinear]
    computes on the features scaled by [scaleFeatures]. *)
Theorem predictFromFeatures_is_scoreLinear (model : Single.model_params)
    (features : list num) :
  (length (Single.coef model) <= length (Single.intercept model))%nat ->
  Forall (fun v => v <> NaN) (Single.intercept model) ->
  Single.probs (Single.predictFromFeatures model features) =
  scoreLinear (Single.coef model) (Single.intercept model)
    (scaleFeatures
       (ExportData (Single.scaler_mean model) (Single.scaler_scale model)
                   (Single.class_names model) ∅)
       features).
Proof.
  intros Hlen Hall. unfold Single.predictFromFeatures, scoreLinear.
  simpl. f_equal. apply imap_ext. intros c row Hc.
  rewrite of_read_or_zero; [reflexivity | exact Hall |].
  apply lookup_lt_Some in Hc. lia.
Qed.

Lemma predictFromFeatures_is_scoreLinear_witness :
  Single.probs
    (Single.predictFromFeatures
       (finite_params [1] [2] [[1]; [-1]] [0; 0] ["a"; "b"]) [Fin 3]) =
  scoreLinear (map (map Fin) [[1]; [-1]]) (map Fin [0; 0])
    (scaleFeatures (ExportData (map Fin [1]) (map Fin [2]) ["a"; "b"] ∅)
                   [Fin 3]).
Proof.
  apply (predictFromFeatures_is_scoreLinear
           (finite_params [1] [2] [[1]; [-1]] [0; 0] ["a"; "b"]) [Fin 3]).
  - simpl. lia.
  - repeat constructor; discriminate.
Defined.

(** X8: whatever the parameters and the features, the script returns one
    probability per row of [coef], and its [classIndex] is either [-1],
    with no class name, or the index of a row whose probability is [===]
    the largest one, with the entry of [class_names] at that index as the
    class name. *)
Theorem predictFromFeatures_valid (model : Single.model_params)
    (features : list num) :
  length (Single.probs (Single.predictFromFeatures model features)) =
    length (Single.coef model) /\
  ((Single.classIndex (Single.predictFromFeatures model features) = (-1)%Z /\
    Single.className (Single.predictFromFeatures model features) = None) \/
   (exists (i : nat) (x : num),
       Single.classIndex (Single.predictFromFeatures model features) =
         Z.of_nat i /\
       (i < length (Single.coef model))%nat /\
       Single.className (Single.predictFromFeatures model features) =
         Single.class_names model !! i /\
       Single.probs (Single.predictFromFeatures model features) !! i =
         Some x /\
       Num.strict_eq x
         (Num.math_max
            (Single.probs (Single.predictFromFeatures model features))) =
         true)).
Proof.
  set (p := Single.predictFromFeatures model features).
  assert (Hlen : length (Single.probs p) = length (Single.coef model)).
  { subst p. unfold Single.predictFromFeatures. cbn [Single.probs].
    now rewrite softmax_length, length_imap. }
  assert (Hidx : Single.classIndex p = maxIdx (Single.probs p))
    by reflexivity.
  assert (Hname : Single.className p =
                  read (Single.class_names model) (Single.classIndex p))
    by reflexivity.
  split; [exact Hlen|].
  rewrite Hname, Hidx. unfold maxIdx, indexOf.
  destruct (indexOf_from_spec (Single.probs p)
              (Num.math_max (Single.probs p)) 0)
    as [[Hi _]|(i & y & Hi & Hy & Ey & _)]; rewrite Hi.
  - left. split; reflexivity.
  - right. exists i, y. rewrite Z.add_0_l, read_of_nat.
    repeat split; auto.
    rewrite <- Hlen. eapply lookup_lt_Some, Hy.
Qed.

(** X9: when a row is longer than the raw feature vector, the script
    returns only [NaN] probabilities, the class index [-1] and no class
    name. *)
Theorem predictFromFeatures_too_few (model : Single.model_params)
    (features : list num) :
  Exists (fun row => (length features < length row)%nat) (Single.coef model) ->
  Single.probs (Single.predictFromFeatures model features) =
    replicate (length (Single.coef model)) NaN /\
  Single.classIndex (Single.predictFromFeatures model features) = (-1)%Z /\
  Single.className (Single.predictFromFeatures model features) = None.
Proof.
  intros Hex.
  assert (Hprobs : Single.probs (Single.predictFromFeatures model features) =
                   replicate (length (Single.coef model)) NaN).
  { unfold Single.predictFromFeatures. cbn [Single.probs].
    rewrite softmax_In_NaN.
    - now rewrite length_imap.
    - apply scores_short. now rewrite scaled_length. }
  assert (Hidx : Single.classIndex (Single.predictFromFeatures model features)
                 = (-1)%Z).
  { change (Single.classIndex (Single.predictFromFeatures model features))
      with (maxIdx (Single.probs (Single.predictFromFeatures model features))).
    rewrite Hprobs. apply maxIdx_NaNs. }
  repeat split; [exact Hprobs | exact Hidx |].
  change (Single.className (Single.predictFromFeatures model features))
    with (read (Single.class_names model)
               (Single.classIndex (Single.predictFromFeatures model features))).
  now rewrite Hidx.
Qed.

Lemma predictFromFeatures_too_few_witness :
  Single.probs
    (Single.predictFromFeatures
       (finite_params [1; 1] [2; 2] [[1; 1]; [-1; 0]] [0; 0] ["a"; "b"])
       [Fin 3]) = replicate 2 NaN /\
  Single.classIndex
    (Single.predictFromFeatures
       (finite_params [1; 1] [2; 2] [[1; 1]; [-1; 0]] [0; 0] ["a"; "b"])
       [Fin 3]) = (-1)%Z /\
  Single.className
    (Single.predictFromFeatures
       (finite_params [1; 1] [2; 2] [[1; 1]; [-1; 0]] [0; 0] ["a"; "b"])
       [Fin 3]) = None.
Proof.
  apply (predictFromFeatures_too_few
           (finite_params [1; 1] [2; 2] [[1; 1]; [-1; 0]] [0; 0] ["a"; "b"])
           [Fin 3]).
  left. simpl. lia.
Defined.

End SinglePrediction.

(** ** [predictTree] reads the tested features only *)

Section TestedFeatures.

Variable treeNodes : list node.
Variables xs xs' : list num.
Hypothesis tested_agree :
  forall n, In n treeNodes -> is_leaf n = false ->
    read xs (feature n) = read xs' (feature n).

Lemma read_In {A} (l : list A) (i : Z) (x : A) : read l i = Some x -> In x l.
Proof.
  unfold read. destruct (i <? 0)%Z; [discriminate|].
  intros H. apply list_elem_of_In. eapply list_elem_of_lookup_2, H.
Qed.

Lemma visit_agree i : visit treeNodes xs i = visit treeNodes xs' i.
Proof.
  unfold visit. destruct (read treeNodes i) as [n|] eqn:Hn; [|reflexivity].
  fold (is_leaf n). destruct (is_leaf n) eqn:L; [reflexivity|].
  now rewrite (tested_agree n (read_In _ _ _ Hn) L).
Qed.

Lemma run_agree fuel :
  forall i, predictTree_from fuel treeNodes xs i =
            predictTree_from fuel treeNodes xs' i.
Proof.
  induction fuel as [|fuel IH]; intros i; [reflexivity|].
  simpl. rewrite visit_agree.
  destruct (visit treeNodes xs' i); auto.
Qed.

End TestedFeatures.

(** X10: two feature vectors that agree at every feature index tested by an
    internal node of the tree get the same outcome from [predictTree]
    (the same counts, the same error, or both still running). *)
Theorem predictTree_tested_features (treeNodes : list node)
    (xs xs' : list num) (fuel : nat) :
  (forall n, In n treeNodes -> is_leaf n = false ->
     read xs (feature n) = read xs' (feature n)) ->
  predictTree fuel treeNodes xs = predictTree fuel treeNodes xs'.
Proof. intros H. apply run_agree. exact H. Qed.

Lemma predictTree_tested_features_witness :
  predictTree 3 stump [Fin (2/10)] = predictTree 3 stump [Fin (2/10); Fin 7].
Proof.
  apply (predictTree_tested_features stump [Fin (2/10)] [Fin (2/10); Fin 7] 3).
  intros n [<-|[<-|[<-|[]]]] L; try discriminate L. reflexivity.
Defined.

(** ** [agg[i] += counts[i]] *)

Section AddCounts.

Local Abbreviation step counts :=
  (fun agg i =>
     js_set agg i (Num.of_read (agg !! i) + Num.of_read (counts !! i))%num).

(** The turns after the first leave the first entry alone. *)
Lemma add_counts_shift (c x : num) (counts : list num) (n : nat) :
  forall (k : nat) (l : list num),
    fold_left (step (c :: counts)) (seq (S k) n) (x :: l) =
    x :: fold_left (step counts) (seq k n) l.
Proof.
  induction n as [|n IH]; intros k l; [reflexivity|].
  simpl seq. simpl fold_left. rewrite <- IH. f_equal.
  unfold js_set. simpl length.
  change (S k <? S (length l))%nat with (k <? length l)%nat.
  destruct (k <? length l)%nat; reflexivity.
Qed.

Lemma add_counts_cons (a c : num) (agg counts : list num) :
  add_counts (a :: agg) (c :: counts) = (a + c)%num :: add_counts agg counts.
Proof. unfold add_counts. simpl. apply add_counts_shift. Qed.

Lemma add_counts_nil_cons (c : num) (counts : list num) :
  add_counts [] (c :: counts) = NaN :: add_counts [] counts.
Proof. unfold add_counts. simpl. apply add_counts_shift. Qed.

Lemma add_counts_nil_r (agg : list num) : add_counts agg [] = agg.
Proof. reflexivity. Qed.

Lemma add_counts_lookup (counts : list num) :
  forall (agg : list num) (i : nat),
    add_counts agg counts !! i =
    match agg !! i, counts !! i with
    | Some a, Some c => Some (a + c)%num
    | Some a, None => Some a
    | None, Some c => Some NaN
    | None, None => None
    end.
Proof.
  induction counts as [|c counts IH]; intros agg i.
  - rewrite add_counts_nil_r. simpl. now destruct (agg !! i).
  - destruct agg as [|a agg].
    + rewrite add_counts_nil_cons. destruct i as [|i]; [reflexivity|].
      simpl. rewrite IH. simpl. reflexivity.
    + rewrite add_counts_cons. destruct i as [|i]; [reflexivity|].
      simpl. apply IH.
Qed.

Lemma add_counts_length (counts : list num) :
  forall agg : list num,
    length (add_counts agg counts) = Nat.max (length agg) (length counts).
Proof.
  induction counts as [|c counts IH]; intros agg.
  - rewrite add_counts_nil_r. simpl. lia.
  - destruct agg as [|a agg].
    + rewrite add_counts_nil_cons. simpl. now rewrite IH.
    + rewrite add_counts_cons. simpl. now rewrite IH.
Qed.

(** X11: the loop [agg[i] += counts[i]] adds the entries that both vectors
    have, keeps the entries that only [agg] has, and makes the result as long
    as the longer vector, with [NaN] at every index that only [counts]
    has. *)
Theorem add_counts_entries (agg counts : list num) :
  length (add_counts agg counts) = Nat.max (length agg) (length counts) /\
  (forall i a c, agg !! i = Some a -> counts !! i = Some c ->
     add_counts agg counts !! i = Some (a + c)%num) /\
  (forall i a, agg !! i = Some a -> counts !! i = None ->
     add_counts agg counts !! i = Some a) /\
  (forall i c, agg !! i = None -> counts !! i = Some c ->
     add_counts agg counts !! i = Some NaN).
Proof.
  split; [apply add_counts_length|].
  repeat split; intros; rewrite add_counts_lookup;
    repeat match goal with H : _ !! _ = _ |- _ => rewrite H; clear H end;
    reflexivity.
Qed.

Lemma add_counts_entries_witness :
  add_counts [Fin 1] [Fin 2; Fin 3] !! 1%nat = Some NaN.
Proof.
  apply (proj2 (proj2 (proj2 (add_counts_entries [Fin 1] [Fin 2; Fin 3])))
           1%nat (Fin 3)); reflexivity.
Defined.

End AddCounts.

(** ** [predictRF] on forests whose trees return *)

Section ForestReturns.

(** The counts of the trees, when every tree returns. *)
Lemma aggregate_returns (fuel : nat) (exportData : export_data)
    (nc : option nat) (xs : list num)
    (forest : list (list node)) (cs : list (list num)) :
  Forall2 (fun tree c => predictTree fuel tree xs = Ret c) forest cs ->
  aggregate fuel exportData (RfModel nc forest) xs =
  Ret (fold_left add_counts cs
         (replicate (nClasses exportData (RfModel nc forest)) Num.zero)).
Proof.
  intros H. unfold aggregate. cbn [trees].
  generalize (replicate (nClasses exportData (RfModel nc forest)) Num.zero).
  induction H as [|tree c forest cs Hc _ IH]; intros acc; [reflexivity|].
  simpl. rewrite Hc. simpl. apply IH.
Qed.

Lemma fold_add_counts_length (n : nat) (cs : list (list num)) :
  Forall (fun c => (length c <= n)%nat) cs ->
  forall acc, length acc = n -> length (fold_left add_counts cs acc) = n.
Proof.
  induction 1 as [|c cs Hc _ IH]; intros acc Hacc; [exact Hacc|].
  simpl. apply IH. rewrite add_counts_length. lia.
Qed.




(** X25: two feature vectors that agree at every feature index tested by
    an internal node of a tree of the forest get the same outcome from
    [predictRF]. *)
Theorem predictRF_tested_features (fuel : nat) (exportData : export_data)
    (rfModel : rf_model) (xs xs' : list num) :
  (forall tree n, In tree (trees rfModel) -> In n tree ->
     is_leaf n = false ->
     read xs (feature n) = read xs' (feature n)) ->
  predictRF fuel exportData rfModel xs = predictRF fuel exportData rfModel xs'.
Proof.
  intros H. unfold predictRF, aggregate. f_equal.
  apply fold_left_ext_In. intros acc tree Htree.
  unfold predictTree.
  now rewrite (run_agree tree xs xs' (fun n => H tree n Htree) fuel 0%Z).
Qed.

Lemma predictRF_tested_features_witness :
  predictRF 3 three_classes (RfModel (Some 2%nat) [stump; zero_leaf])
            [Fin (2/10)] =
  predictRF 3 three_classes (RfModel (Some 2%nat) [stump; zero_leaf])
            [Fin (2/10); Fin 7].
Proof.
  apply (predictRF_tested_features 3 three_classes
           (RfModel (Some 2%nat) [stump; zero_leaf])
           [Fin (2/10)] [Fin (2/10); Fin 7]).
  intros tree n [<-|[<-|[]]].
  - intros [<-|[<-|[<-|[]]]] L; try discriminate L. reflexivity.
  - intros [<-|[]] L. discriminate L.
Defined.

End ForestReturns.

(** ** [predictRF] on a forest with a tree that does not return *)

Section ForestFails.

Variable fuel : nat.
Variable exportData : export_data.
Variable xs : list num.

Local Abbreviation turn_of_forest :=
  (fun (acc : outcome (list num)) (tree : list node) =>
     agg ← acc;
     counts ← predictTree fuel tree xs;
     mret (add_counts agg counts)).

Lemma forest_stays_failed (e : outcome (list num)) (forest : list (list node)) :
  (forall c, e <> Ret c) -> fold_left turn_of_forest forest e = e.
Proof.
  intros He. induction forest as [|tree forest IH]; [reflexivity|].
  simpl. destruct e as [c| |]; [now destruct (He c) | exact IH | exact IH].
Qed.

Lemma forest_prefix_returns (pre : list (list node)) :
  Forall (fun tree => exists c, predictTree fuel tree xs = Ret c) pre ->
  forall acc, exists acc',
    fold_left turn_of_forest pre (Ret acc) = Ret acc'.
Proof.
  induction 1 as [|tree pre [c Hc] _ IH]; intros acc; [now exists acc|].
  simpl. rewrite Hc. simpl. apply IH.
Qed.

Lemma predictRF_fails (nc : option nat) (pre post : list (list node))
    (bad : list node) (e : outcome (list num)) :
  Forall (fun tree => exists c, predictTree fuel tree xs = Ret c) pre ->
  predictTree fuel bad xs = e ->
  (forall c, e <> Ret c) ->
  predictRF fuel exportData (RfModel nc (pre ++ bad :: post)) xs = e.
Proof.
  intros Hpre Hbad He. unfold predictRF, aggregate. cbn [trees].
  set (zeros := replicate (nClasses exportData
                             (RfModel nc (pre ++ bad :: post))) Num.zero).
  change (mret zeros) with (Ret zeros).
  rewrite fold_left_app.
  destruct (forest_prefix_returns pre Hpre zeros) as [acc' Hacc].
  rewrite Hacc. cbn [fold_left].
  assert (Hstep : (Ret acc' ≫= fun agg =>
                     counts ← predictTree fuel bad xs;
                     mret (add_counts agg counts)) = e).
  { simpl. rewrite Hbad. destruct e as [c| |]; [now destruct (He c)| |];
      reflexivity. }
  rewrite Hstep, (forest_stays_failed e post He).
  destruct e as [c| |]; [now destruct (He c)| |]; reflexivity.
Qed.

End ForestFails.



(** ** [mlpPredict] with one layer *)

Section OneLayer.

Lemma mul_comm (a b : num) : (a * b)%num = (b * a)%num.
Proof. destruct a, b; simpl; try reflexivity. f_equal. lra. Qed.

Lemma zip_with_mul_comm (l : list num) :
  forall k, zip_with Num.mul l k = zip_with Num.mul k l.
Proof.
  induction l as [|x l IH]; intros [|y k]; simpl; try reflexivity.
  now rewrite mul_comm, IH.
Qed.

Lemma mlpPredict_one_layer (W : list (list num)) (b xs : list num) :
  (length xs <= length W)%nat ->
  mlpPredict (MlpModel [W] [b]) xs = Ret (softmax (layer_out (Layer W b) xs)).
Proof.
  intros Hlen. pose proof (dense_layer_out (Layer W b) xs Hlen) as E.
  cbn [weights bias] in E. unfold mlpPredict. simpl. now rewrite E.
Qed.

Lemma column_length (W : list (list num)) (j : nat) :
  length (column W j) = length W.
Proof. unfold column. apply length_map. Qed.

(** X15: with a single layer, an input that has one entry per weight row and
    biases that are not [NaN], [mlpPredict] returns what [scoreLinear]
    returns on the columns of the weights as rows and the biases as
    intercepts. *)
Theorem mlpPredict_single_layer (W : list (list num)) (b xs : list num) :
  length xs = length W ->
  Forall (fun v => v <> NaN) b ->
  mlpPredict (MlpModel [W] [b]) xs =
  Ret (scoreLinear (map (column W) (seq 0 (length b))) b xs).
Proof.
  intros Hlen Hb. rewrite mlpPredict_one_layer by lia.
  unfold scoreLinear, layer_out. cbn [weights bias]. do 2 f_equal.
  apply list_eq. intros i.
  rewrite !list_lookup_imap.
  change (map (column W) (seq 0 (length b)))
    with (column W <$> seq 0 (length b)).
  rewrite list_lookup_fmap.
  destruct (le_lt_dec (length b) i) as [Hge|Hlt].
  - now rewrite lookup_seq_ge, (lookup_ge_None_2 b i) by lia.
  - rewrite lookup_seq_lt by lia.
    destruct (lookup_lt_is_Some_2 b i Hlt) as [bi Hbi].
    assert (Hor : Num.or_zero (b !! i) = bi)
      by (now rewrite <- (of_read_or_zero b i Hb Hlt), Hbi).
    cbn beta. rewrite Hor, Hbi.
    cbn [fmap option_fmap option_map Nat.add].
    rewrite add_products_zip by (rewrite column_length; lia).
    now rewrite zip_with_mul_comm.
Qed.

Lemma mlpPredict_single_layer_witness :
  mlpPredict (MlpModel [[[Fin 1; Fin 2]; [Fin 3; Fin 4]]] [[Fin 5; Fin 6]])
             [Fin 7; Fin 8] =
  Ret (scoreLinear
         (map (column [[Fin 1; Fin 2]; [Fin 3; Fin 4]])
              (seq 0 (length [Fin 5; Fin 6])))
         [Fin 5; Fin 6] [Fin 7; Fin 8]).
Proof.
  apply (mlpPredict_single_layer [[Fin 1; Fin 2]; [Fin 3; Fin 4]]
           [Fin 5; Fin 6] [Fin 7; Fin 8]).
  - reflexivity.
  - repeat constructor; discriminate.
Defined.

End OneLayer.

(** ** [mlpPredict]: where it throws *)

Section LayersThrow.

Variable mlpModel : mlp_model.

Local Abbreviation turn_of_layers :=
  (fun (acc : outcome (list num)) (layer : nat) =>
     a ← acc;
     W ← defined (coefs mlpModel !! layer);
     b ← defined (intercepts mlpModel !! layer);
     out ← dense W b a;
     mret (if layer <? length (coefs mlpModel) - 1
           then map relu out else out)).

Lemma layers_stay_thrown (l : list nat) :
  fold_left turn_of_layers l TypeError = TypeError.
Proof. induction l as [|i l IH]; [reflexivity | exact IH]. Qed.

(** A throw in the first layer is the outcome of the call. *)
Lemma mlpPredict_throws_first (xs : list num) (n : nat) :
  length (coefs mlpModel) = S n ->
  turn_of_layers (Ret xs) 0%nat = TypeError ->
  mlpPredict mlpModel xs = TypeError.
Proof.
  intros Hn Hfirst. unfold mlpPredict.
  remember (seq 0 (length (coefs mlpModel))) as l eqn:El.
  rewrite Hn in El. subst l.
  change (mret xs) with (Ret xs). cbn [seq fold_left].
  now rewrite Hfirst, layers_stay_thrown.
Qed.

End LayersThrow.

Section NeuronThrows.

Variable W : list (list num).
Variable a : list num.
Variable j : nat.

Local Abbreviation turn_of_neuron :=
  (fun (acc : outcome num) (i : nat) =>
     s ← acc;
     Wi ← defined (W !! i);
     mret (s + Num.of_read (a !! i) * Num.of_read (Wi !! j))%num).

Lemma neuron_stays_thrown (l : list nat) :
  fold_left turn_of_neuron l TypeError = TypeError.
Proof. induction l as [|i l IH]; [reflexivity | exact IH]. Qed.

Lemma neuron_returns_or_throws (l : list nat) :
  forall s, fold_left turn_of_neuron l (Ret s) = TypeError \/
            exists s', fold_left turn_of_neuron l (Ret s) = Ret s'.
Proof.
  induction l as [|i l IH]; intros s; [right; now exists s|].
  simpl. destruct (W !! i) as [Wi|]; simpl.
  - apply IH.
  - left. apply neuron_stays_thrown.
Qed.

(** The loop over the input throws at the first entry without a row. *)
Lemma neuron_throws (bj : num) :
  (length W < length a)%nat ->
  fold_left turn_of_neuron (seq 0 (length a)) (Ret bj) = TypeError.
Proof.
  intros Hlen.
  replace (length a) with (length W + S (length a - S (length W)))%nat by lia.
  rewrite seq_app, fold_left_app. simpl seq. cbn [fold_left].
  rewrite (lookup_ge_None_2 W (length W)) by lia.
  destruct (neuron_returns_or_throws (seq 0 (length W)) bj) as [E|[s E]];
    rewrite E; apply neuron_stays_thrown.
Qed.

End NeuronThrows.

Lemma dense_throws (W : list (list num)) (b0 : num) (b a : list num) :
  (length W < length a)%nat -> dense W (b0 :: b) a = TypeError.
Proof.
  intros Hlen. unfold dense. cbn [length seq].
  match goal with |- mapM ?f _ = _ => set (neuron_of := f) end.
  assert (E : neuron_of 0%nat = TypeError)
    by exact (neuron_throws W a 0 b0 Hlen).
  change (mapM neuron_of (0%nat :: seq 1 (length b)))
    with (y ← neuron_of 0%nat;
          k ← mapM neuron_of (seq 1 (length b)); mret (y :: k)).
  now rewrite E.
Qed.

(** X16: [mlpPredict] throws a [TypeError] when the model has a first
    weight matrix but no bias vector, and when the input has more entries
    than the first weight matrix has rows while the first layer has an
    output. *)
Theorem mlpPredict_throws (W : list (list num)) (Ws : list (list (list num)))
    (b0 : num) (b : list num) (bs : list (list num)) (xs : list num) :
  mlpPredict (MlpModel (W :: Ws) []) xs = TypeError /\
  ((length W < length xs)%nat ->
   mlpPredict (MlpModel (W :: Ws) ((b0 :: b) :: bs)) xs = TypeError).
Proof.
  split.
  - now apply (mlpPredict_throws_first _ xs (length Ws)).
  - intros Hlen. apply (mlpPredict_throws_first _ xs (length Ws));
      [reflexivity|].
    simpl. now rewrite (dense_throws W b0 b xs Hlen).
Qed.

Lemma mlpPredict_throws_witness :
  mlpPredict (MlpModel [[[Fin 1]]] [[Fin 0]]) [Fin 1; Fin 2] = TypeError.
Proof.
  apply (proj2 (mlpPredict_throws [[Fin 1]] [] (Fin 0) [] []
                  [Fin 1; Fin 2])).
  simpl. lia.
Defined.

(** ** [mlpPredict]: the length of the result *)

Section LayerDimensions.

Lemma mlpPredict_runs_forward (layers : list layer) (xs : list num) :
  chained (length xs) layers ->
  mlpPredict (mlp_of_layers layers) xs = Ret (softmax (forward layers xs)).
Proof.
  intros Hch. unfold mlpPredict.
  cbn [mlp_of_layers coefs intercepts]. rewrite length_map.
  change (@mret outcome _ _ xs) with (Ret xs).
  rewrite (layers_loop layers layers 0 xs); auto.
Qed.

Lemma length_forward (layers : list layer) :
  forall a : list num,
    length (forward layers a) = output_dim (length a) layers.
Proof.
  induction layers as [|L layers IH]; intros a; [reflexivity|].
  destruct layers as [|L' layers].
  - simpl. apply length_layer_out.
  - change (forward (L :: L' :: layers) a)
      with (forward (L' :: layers) (map ReLU (layer_out L a))).
    rewrite IH, length_map, length_layer_out. reflexivity.
Qed.

(** X17: on layers that satisfy the chaining invariant and an input of the
    first layer's input dimension, [mlpPredict] throws nothing and returns
    one entry per output of the last layer. *)
Theorem mlpPredict_output_length (layers : list layer) (xs : list num) :
  chained (length xs) layers ->
  exists pr : list num,
    mlpPredict (mlp_of_layers layers) xs = Ret pr /\
    length pr = output_dim (length xs) layers.
Proof.
  intros Hch. exists (softmax (forward layers xs)).
  split; [now apply mlpPredict_runs_forward|].
  now rewrite softmax_length, length_forward.
Qed.

Lemma mlpPredict_output_length_witness :
  exists pr : list num,
    mlpPredict
      (mlp_of_layers [identity_layer;
                      Layer [[Fin 1]; [Fin (-1)]] [Fin 0]])
      [Fin 2; Fin (-3)] = Ret pr /\
    length pr =
      output_dim (length [Fin 2; Fin (-3)])
        [identity_layer; Layer [[Fin 1]; [Fin (-1)]] [Fin 0]].
Proof.
  apply (mlpPredict_output_length
           [identity_layer; Layer [[Fin 1]; [Fin (-1)]] [Fin 0]]
           [Fin 2; Fin (-3)]).
  simpl. repeat split; repeat constructor.
Defined.

End LayerDimensions.

(** ** [predictWithModel] and the models shown *)

Section ModelsShown.

Variable fuel : nat.
Variable exportData : export_data.
Variable xs : list num.

Lemma predictWithModel_null_iff (modelName : string) :
  predictWithModel fuel exportData modelName xs = Ret None <->
  answers exportData modelName = false.
Proof.
  unfold predictWithModel, answers.
  destruct (models exportData !! modelName) as [[coef intercept|m|m|]|];
    split; try reflexivity; try discriminate; intros H; exfalso;
    exact (bind_Some_not_null _ H).
Qed.

Local Abbreviation turn_of_models :=
  (fun (acc : outcome (list (list num))) (name : string) =>
     probList ← acc;
     probs ← predictWithModel fuel exportData name xs;
     mret (match probs with
           | None => probList
           | Some probs => probList ++ [probs]
           end)).

Lemma probList_skips (names : list string) :
  forall acc,
    fold_left turn_of_models names acc =
    fold_left turn_of_models (List.filter (answers exportData) names) acc.
Proof.
  induction names as [|name names IH]; intros acc; [reflexivity|].
  simpl. destruct (answers exportData name) eqn:Ha; simpl; [apply IH|].
  rewrite <- IH. f_equal.
  apply predictWithModel_null_iff in Ha. rewrite Ha.
  now destruct acc.
Qed.

End ModelsShown.

(** X18: [predictWithModel] returns [null] exactly when the bundle has no
    model under the name or the model's type is none of the three known
    ones. *)
Theorem predictWithModel_null (fuel : nat) (exportData : export_data)
    (modelName : string) (xs : list num) :
  predictWithModel fuel exportData modelName xs = Ret None <->
  models exportData !! modelName = None \/
  models exportData !! modelName = Some Other.
Proof.
  rewrite predictWithModel_null_iff. unfold answers.
  destruct (models exportData !! modelName) as [[coef intercept|m|m|]|];
    split; auto; try discriminate; intros [H|H]; discriminate.
Qed.

Lemma predictWithModel_null_witness :
  predictWithModel 0 unit_scaler "mlp" [Fin 2] = Ret None.
Proof.
  apply (proj2 (predictWithModel_null 0 unit_scaler "mlp" [Fin 2])).
  left. apply lookup_empty.
Defined.

(** X19: the handler's list of probabilities is the one it would collect
    from the names that the bundle maps to a model of a known type: the
    other names are passed over in silence, in the order given. *)
Theorem probList_known_models (fuel : nat) (exportData : export_data)
    (names : list string) (xs : list num) :
  probList fuel exportData names xs =
  probList fuel exportData (List.filter (answers exportData) names) xs.
Proof. unfold probList. apply probList_skips. Qed.

(** ** The ensemble of a single model *)

Section EnsembleOfOne.

Lemma over_one (x : num) : ((Num.zero + x) / Fin 1)%num = x.
Proof.
  destruct x as [r| | |]; unfold Num.zero; simpl; try reflexivity.
  - rewrite is_zero_false by lra. f_equal. field.
  - unfold Num.is_neg. destruct (Rlt_dec 1 0); [lra | reflexivity].
  - unfold Num.is_neg. destruct (Rlt_dec 1 0); [lra | reflexivity].
Qed.

(** With one vector, every entry of the average is [(0 + v[i]) / 1]. *)
Lemma average_single (v : list num) : average [v] = v.
Proof.
  unfold average. cbn [fold_left length INR].
  apply list_eq. intros i.
  change (map ?f ?l) with (f <$> l).
  rewrite list_lookup_fmap, add_counts_lookup.
  destruct (v !! i) as [x|] eqn:Hx.
  - rewrite lookup_replicate_2 by (eapply lookup_lt_Some, Hx).
    cbn [fmap option_fmap option_map]. now rewrite over_one.
  - rewrite (lookup_ge_None_2 (replicate (length v) Num.zero) i);
      [reflexivity|].
    rewrite length_replicate. now apply lookup_ge_None_1.
Qed.

(** X20: when a single model is shown, the ensemble box changes nothing
    in the class handed on: the average of one vector has that vector's
    length and the same winning index. *)
Theorem average_single_model (v : list num) :
  length (average [v]) = length v /\
  maxIdx (average [v]) = maxIdx v /\
  referenceIndex true [v] = referenceIndex false [v].
Proof.
  unfold referenceIndex. now rewrite average_single.
Qed.

End EnsembleOfOne.

(** ** The ensemble average of vectors of different lengths *)

Section AverageMismatch.

Variable k : nat.

Lemma add_counts_NaN_stays (acc p : list num) :
  acc !! k = Some NaN -> add_counts acc p !! k = Some NaN.
Proof.
  intros H. rewrite add_counts_lookup, H. now destruct (p !! k).
Qed.

Lemma add_counts_NaN_enters (acc p : list num) :
  acc !! k = None \/ acc !! k = Some NaN ->
  (k < length p)%nat ->
  add_counts acc p !! k = Some NaN.
Proof.
  intros Hacc Hlen. destruct (lookup_lt_is_Some_2 p k Hlen) as [c Hc].
  rewrite add_counts_lookup, Hc. now destruct Hacc as [-> | ->].
Qed.

Lemma add_counts_NaN_or_none (acc p : list num) :
  acc !! k = None \/ acc !! k = Some NaN ->
  add_counts acc p !! k = None \/ add_counts acc p !! k = Some NaN.
Proof.
  intros Hacc. rewrite add_counts_lookup.
  destruct Hacc as [-> | ->]; destruct (p !! k); auto.
Qed.

Lemma fold_add_counts_NaN_stays (rest : list (list num)) :
  forall acc, acc !! k = Some NaN ->
    fold_left add_counts rest acc !! k = Some NaN.
Proof.
  induction rest as [|p rest IH]; intros acc H; [exact H|].
  simpl. now apply IH, add_counts_NaN_stays.
Qed.

Lemma fold_add_counts_NaN_enters (rest : list (list num)) :
  Exists (fun p => (k < length p)%nat) rest ->
  forall acc, acc !! k = None \/ acc !! k = Some NaN ->
    fold_left add_counts rest acc !! k = Some NaN.
Proof.
  induction 1 as [p rest Hp | p rest _ IH]; intros acc Hacc; simpl.
  - now apply fold_add_counts_NaN_stays, add_counts_NaN_enters.
  - now apply IH, add_counts_NaN_or_none.
Qed.

End AverageMismatch.

Lemma average_mismatch_entry (first : list num) (rest : list (list num)) :
  Exists (fun p => (length first < length p)%nat) rest ->
  average (first :: rest) !! length first = Some NaN.
Proof.
  intros Hex. unfold average. cbn [fold_left].
  change (map ?f ?l) with (f <$> l). rewrite list_lookup_fmap.
  rewrite (fold_add_counts_NaN_enters (length first) rest Hex).
  - reflexivity.
  - left. apply lookup_ge_None_2.
    rewrite add_counts_length, length_replicate. lia.
Qed.

(** X22: the average reports no mismatch of lengths.  When a later vector is
    longer than the first one, the average has a [NaN] at the first index
    past the first vector, and the class index handed on for the ensemble
    is [-1]. *)
Theorem average_longer_vector (first : list num) (rest : list (list num)) :
  Exists (fun p => (length first < length p)%nat) rest ->
  average (first :: rest) !! length first = Some NaN /\
  referenceIndex true (first :: rest) = Some (-1)%Z.
Proof.
  intros Hex. pose proof (average_mismatch_entry first rest Hex) as Hnan.
  split; [exact Hnan|].
  unfold referenceIndex. f_equal. apply maxIdx_In_NaN.
  apply list_elem_of_In. eapply list_elem_of_lookup_2, Hnan.
Qed.

Lemma average_longer_vector_witness :
  average ([Fin 1] :: [[Fin 2; Fin 3]]) !! length [Fin 1] = Some NaN /\
  referenceIndex true ([Fin 1] :: [[Fin 2; Fin 3]]) = Some (-1)%Z.
Proof.
  apply (average_longer_vector [Fin 1] [[Fin 2; Fin 3]]).
  left. simpl. lia.
Defined.
